(** * zapcore/sampler.go: the sampling facility and its frequency counters

    A shallow embedding of [zapcore/sampler.go]: the exact counter
    ([counters]), the sharded counter ([counters2]) with its hash
    ([xorstring], [xshrr], [hash]), the constructor [Sample] and the
    decorator method [Check].

    Conventions.
    - A [uint64] / [uint32] is a [Z] in range; every operation that can leave
      the range is followed by its wrap-around ([u64], [u32]).
    - A Go [string] is a sequence of bytes: a [string] of 8-bit [ascii].
    - A Go function that can panic returns a [result]; locks are not modelled
      (every method body is one atomic step).
    - The fields of [sampler] carry the prefix [s_], those of [Entry] the
      prefix [ent_].  The counter object [s.counts] points to is threaded
      through the calls as the field [s_counts]; for the method [With],
      which copies the pointer, the counters live in a heap
      ([sampler_ref]). *)

From Stdlib Require Import ZArith Lia Bool List Ascii String.
From stdpp Require Import base option list strings gmap.

Local Open Scope Z_scope.

(** ** Panics *)

Inductive panic : Type :=
| NilDereference      (* invalid memory address or nil pointer dereference *)
| DivideByZero        (* integer divide by zero *)
| IndexOutOfRange.    (* index out of range *)

Inductive result (A : Type) : Type :=
| Ok (a : A)
| Panic (p : panic).
Arguments Ok {A} a.
Arguments Panic {A} p.

#[global] Instance result_ret : MRet result := fun A a => Ok a.

#[global] Instance result_bind : MBind result := fun A B k m =>
  match m with
  | Ok a => k a
  | Panic p => Panic p
  end.

(** ** Machine integers *)

Definition u64 (x : Z) : Z := x mod 2 ^ 64.
Definition u32 (x : Z) : Z := x mod 2 ^ 32.

Definition is_u64 (x : Z) : Prop := 0 <= x < 2 ^ 64.
Definition is_u32 (x : Z) : Prop := 0 <= x < 2 ^ 32.

(** [a % b] on [uint64]: a run-time panic when [b] is zero. *)
Definition u64_rem (a b : Z) : result Z :=
  if b =? 0 then Panic DivideByZero else Ok (a mod b).

(** [s[i]] as a [uint64]. *)
Definition byte_of (c : ascii) : Z := Z.of_N (N_of_ascii c).

(** ** The hash of the sharded counter *)

Definition _counters2PerLock : Z := 8.
Definition _counters2BucketMask : Z := _counters2PerLock - 1.
Definition _counters2Width : Z := 8192.
Definition _counters2Locks : Z := _counters2Width / _counters2PerLock.

(** One iteration of the loop of [xorstring]:
    [n = ((n & 0xff) >> 56) | (n << 8); n ^= uint64(s[i])]. *)
Definition xorstring_step (n : Z) (c : ascii) : Z :=
  let n := Z.lor (Z.shiftr (Z.land n 255) 56) (u64 (Z.shiftl n 8)) in
  Z.lxor n (byte_of c).

Fixpoint xorstring_from (n : Z) (s : string) : Z :=
  match s with
  | EmptyString => n
  | String c s' => xorstring_from (xorstring_step n c) s'
  end.

Definition xorstring (s : string) : Z := xorstring_from 0 s.

Definition xshrr (n : Z) : Z :=
  let xorshifted := u32 (Z.shiftr (Z.lxor (Z.shiftr n 18) n) 27) in
  let rot := u32 (Z.shiftr n 59) in
  Z.lor (Z.shiftr xorshifted rot)
        (u32 (Z.shiftl xorshifted (Z.land (u32 (- rot)) 31))).

Definition hash (key : string) : Z :=
  xshrr (xorstring key) mod _counters2Width.

(** *** The reference algorithm of the design document (section 4.1)

    Written from the document's three steps, over unbounded integers with the
    casts the document names: the fold keeps a 64-bit state, the permutation
    casts to 32 bits and negates the rotation amount as an integer, the
    placement reduces modulo the table width [W]. *)
Module Reference.

Definition fold_step (n : Z) (b : Z) : Z :=
  Z.lxor (Z.lor (Z.shiftr (Z.land n 255) 56) (Z.shiftl n 8 mod 2 ^ 64)) b.

Definition fold (bytes : list Z) : Z := fold_left fold_step bytes 0.

Definition permute (n : Z) : Z :=
  let xorshifted := (Z.shiftr (Z.lxor (Z.shiftr n 18) n) 27) mod 2 ^ 32 in
  let rot := Z.shiftr n 59 in
  Z.lor (Z.shiftr xorshifted rot)
        (Z.shiftl xorshifted (Z.land (- rot) 31) mod 2 ^ 32).

Definition place (W : Z) (digest : Z) : Z := digest mod W.

Fixpoint bytes_of (s : string) : list Z :=
  match s with
  | EmptyString => []
  | String c s' => Z.of_nat (nat_of_ascii c) :: bytes_of s'
  end.

Definition slot (W : Z) (key : string) : Z :=
  place W (permute (fold (bytes_of key))).

End Reference.

(** ** The exact counter: [counters]

    [counts map[string]*atomic.Uint64].  Every entry of the map points to a
    cell of its own, cells are never shared between keys and never removed, so
    the map is modelled by the content of the cell each key points to; a key
    that is absent has the nil pointer as its lookup result. *)
Abbreviation counters := (gmap string Z).

Definition newCounters : counters := ∅.

(** [count.Inc()] adds one atomically and returns the new value, wrapping as
    [uint64] addition does. *)
Definition counters_Inc (key : string) (c : counters) : Z * counters :=
  match c !! key with
  | Some count => let n := u64 (count + 1) in (n, <[key := n]> c)
  | None => (1, <[key := 1]> c)
  end.

(** [count := c.counts[key]; count.Store(0)]: for a key that is not in the
    map, [count] is nil and [Store] dereferences it. *)
Definition counters_Reset (key : string) (c : counters) : result counters :=
  match c !! key with
  | Some _ => Ok (<[key := 0]> c)
  | None => Panic NilDereference
  end.

(** ** The sharded counter: [counters2]

    [type counters2 [_counters2Width]bucket2] with
    [counts [_counters2PerLock]uint64] in each bucket; indexing an array out
    of its bounds panics. *)
Record bucket2 : Type := { b_counts : list Z }.

Abbreviation counters2 := (list bucket2).

Definition newCounters2 : counters2 :=
  replicate (Z.to_nat _counters2Width)
            {| b_counts := replicate (Z.to_nat _counters2PerLock) 0 |}.

Definition bucket2_inc (i : Z) (key : string) (b : bucket2) : result (Z * bucket2) :=
  match b_counts b !! Z.to_nat i with
  | Some n =>
      let n := u64 (n + 1) in
      Ok (n, {| b_counts := <[Z.to_nat i := n]> (b_counts b) |})
  | None => Panic IndexOutOfRange
  end.

Definition bucket2_reset (i : Z) (key : string) (b : bucket2) : result bucket2 :=
  match b_counts b !! Z.to_nat i with
  | Some _ => Ok {| b_counts := <[Z.to_nat i := 0]> (b_counts b) |}
  | None => Panic IndexOutOfRange
  end.

Definition counters2_Inc (key : string) (c : counters2) : result (Z * counters2) :=
  let i := hash key in
  match c !! Z.to_nat (i / _counters2PerLock) with
  | Some b =>
      '(n, b') ← bucket2_inc (Z.land i _counters2BucketMask) key b;
      mret (n, <[Z.to_nat (i / _counters2PerLock) := b']> c)
  | None => Panic IndexOutOfRange
  end.

Definition counters2_Reset (key : string) (c : counters2) : result counters2 :=
  let i := hash key in
  match c !! Z.to_nat (i / _counters2PerLock) with
  | Some b =>
      b' ← bucket2_reset (Z.land i _counters2BucketMask) key b;
      mret (<[Z.to_nat (i / _counters2PerLock) := b']> c)
  | None => Panic IndexOutOfRange
  end.

(** The count stored for slot index [i] ([c[i/8].counts[i&7]]). *)
Definition slot_of (c : counters2) (i : Z) : option Z :=
  b ← c !! Z.to_nat (i / _counters2PerLock);
  b_counts b !! Z.to_nat (Z.land i _counters2BucketMask).

(** The shape of the array type. *)
Definition counters2_shape (c : counters2) : Prop :=
  length c = Z.to_nat _counters2Width ∧
  Forall (fun b => length (b_counts b) = Z.to_nat _counters2PerLock) c.

(** *** Sequences of counter operations *)

Inductive op : Type :=
| OpInc (key : string)
| OpReset (key : string).

Definition op_key (o : op) : string :=
  match o with OpInc k => k | OpReset k => k end.

(** The counts returned by the [Inc] calls of a sequence, in order. *)
Fixpoint run_counters (ops : list op) (c : counters) : result (list Z) :=
  match ops with
  | [] => mret []
  | OpInc key :: ops' =>
      let '(n, c') := counters_Inc key c in
      ns ← run_counters ops' c'; mret (n :: ns)
  | OpReset key :: ops' =>
      c' ← counters_Reset key c; run_counters ops' c'
  end.

Fixpoint run_counters2 (ops : list op) (c : counters2) : result (list Z) :=
  match ops with
  | [] => mret []
  | OpInc key :: ops' =>
      '(n, c') ← counters2_Inc key c;
      ns ← run_counters2 ops' c'; mret (n :: ns)
  | OpReset key :: ops' =>
      c' ← counters2_Reset key c; run_counters2 ops' c'
  end.

(** The simulation between the two counters: the slot of every key in use
    holds the exact count of that key. *)
Definition slots_agree (keys : string → Prop) (m : counters) (c : counters2)
  : Prop :=
  counters2_shape c ∧
  ∀ k, keys k → slot_of c (hash k) = Some (default 0 (m !! k)).

(** No two distinct keys of the sequence select the same slot. *)
Definition collision_free (ops : list op) : bool :=
  forallb (fun o1 =>
    forallb (fun o2 =>
      implb (hash (op_key o1) =? hash (op_key o2))
            (String.eqb (op_key o1) (op_key o2))) ops) ops.

(** Every [Reset] of the sequence comes after an [Inc] of the same key
    ([seen] holds the keys incremented before the sequence starts). *)
Fixpoint resets_follow_incs (seen : list string) (ops : list op) : bool :=
  match ops with
  | [] => true
  | OpInc key :: ops' => resets_follow_incs (key :: seen) ops'
  | OpReset key :: ops' =>
      bool_decide (key ∈ seen) && resets_follow_incs seen ops'
  end.

(** ** The sampler

    [Level] and [CheckedEntry] are declared in other files of the package and
    are parameters here.  Of [Entry] the sampler reads the two fields below;
    of the [Facility] interface [Check] calls the two methods below, which
    are taken to return (the calls that reach the wrapped [Check] are logged
    in the [world]).  [first] and [thereafter] are [int]s of 64 bits. *)
Section Sampler.

Context {Level CheckedEntry : Type}.

Record Entry : Type := { ent_Level : Level; ent_Message : string }.

Record Facility : Type := {
  Enabled : Level → bool;
  Facility_Check : Entry → CheckedEntry → CheckedEntry
}.

Record sampler : Type := {
  s_Facility : Facility;
  s_tick : Z;
  s_counts : counters;
  s_first : Z;
  s_thereafter : Z
}.

Definition with_counts (s : sampler) (c : counters) : sampler :=
  {| s_Facility := s_Facility s; s_tick := s_tick s; s_counts := c;
     s_first := s_first s; s_thereafter := s_thereafter s |}.

(** What [Check] acts on besides the sampler: the clock and the pending
    timers of [time.AfterFunc], and the log of the calls that reached the
    wrapped facility's [Check]. *)
Record timer : Type := { t_deadline : Z; t_key : string }.

Record world : Type := {
  now : Z;
  timers : list timer;
  forwarded : list (Entry * CheckedEntry)
}.

(** [time.AfterFunc(d, func() { s.counts.Reset(key) })]. *)
Definition AfterFunc (d : Z) (key : string) (w : world) : world :=
  {| now := now w;
     timers := timers w ++ [{| t_deadline := now w + d; t_key := key |}];
     forwarded := forwarded w |}.

Definition forward (ent : Entry) (ce : CheckedEntry) (w : world) : world :=
  {| now := now w; timers := timers w;
     forwarded := forwarded w ++ [(ent, ce)] |}.

Definition Sample (fac : Facility) (tick : Z) (first thereafter : Z)
  : result sampler :=
  mret {| s_Facility := fac;
          s_tick := tick;
          s_counts := newCounters;
          s_first := u64 first;
          s_thereafter := u64 thereafter |}.

Definition Check (s : sampler) (ent : Entry) (ce : CheckedEntry) (w : world)
  : result (CheckedEntry * sampler * world) :=
  if negb (Enabled (s_Facility s) (ent_Level ent)) then mret (ce, s, w)
  else
    let '(n, c) := counters_Inc (ent_Message ent) (s_counts s) in
    let s := with_counts s c in
    if s_first s <? n then
      let w :=
        if n =? u64 (s_first s + 1)
        then AfterFunc (s_tick s) (ent_Message ent) w
        else w in
      r ← u64_rem (u64 (n - s_first s)) (s_thereafter s);
      if negb (r =? 0) then mret (ce, s, w)
      else mret (Facility_Check (s_Facility s) ent ce, s, forward ent ce w)
    else mret (Facility_Check (s_Facility s) ent ce, s, forward ent ce w).

(** The pending timer at position [i] fires: allowed once its deadline has
    passed; it runs the closure and leaves the list. *)
Definition fire (i : nat) (s : sampler) (w : world)
  : option (result (sampler * world)) :=
  t ← timers w !! i;
  if t_deadline t <=? now w then
    Some (c ← counters_Reset (t_key t) (s_counts s);
          mret (with_counts s c,
                {| now := now w; timers := delete i (timers w);
                   forwarded := forwarded w |}))
  else None.

Definition advance (d : Z) (w : world) : world :=
  {| now := now w + d; timers := timers w; forwarded := forwarded w |}.

(** Successive [Check] calls, one per entry, each with accumulator [ce];
    no timer fires in between. *)
Fixpoint run_Checks (ents : list Entry) (ce : CheckedEntry)
    (s : sampler) (w : world) : result (sampler * world) :=
  match ents with
  | [] => mret (s, w)
  | ent :: ents' =>
      '(_, s', w') ← Check s ent ce w;
      run_Checks ents' ce s' w'
  end.

(** Did a call that took the world from [w] to [w'] reach the wrapped
    facility? *)
Definition reached_wrapped (w w' : world) : bool :=
  bool_decide (length (forwarded w') = S (length (forwarded w))).

(** For each of [k] successive [Check] calls of one entry: was it
    forwarded? *)
Fixpoint Check_pattern (k : nat) (s : sampler) (ent : Entry)
    (ce : CheckedEntry) (w : world) : result (list bool) :=
  match k with
  | O => mret []
  | S k' =>
      '(_, s', w') ← Check s ent ce w;
      bs ← Check_pattern k' s' ent ce w';
      mret (reached_wrapped w w' :: bs)
  end.

(** The count of a key ([0] before its first [Inc]). *)
Definition count_of (s : sampler) (key : string) : Z :=
  default 0 (s_counts s !! key).

(** The timers of a list that reset a given key. *)
Definition timers_for (key : string) (ts : list timer) : list timer :=
  filter (fun t => t_key t = key) ts.

(** The invariant of a sampler in use: the burst allowance is a [uint64],
    the cadence is not zero, and every count is a [uint64]. *)
Definition sampler_ok (s : sampler) : Prop :=
  is_u64 (s_first s) ∧ s_thereafter s ≠ 0 ∧
  ∀ key count, s_counts s !! key = Some count → is_u64 count.

Definition same_policy (s s' : sampler) : Prop :=
  s_Facility s' = s_Facility s ∧ s_tick s' = s_tick s ∧
  s_first s' = s_first s ∧ s_thereafter s' = s_thereafter s.

(** *** The two counter variants of the design document

    The document speaks of one counter abstraction with two variants.  The
    field [counts] of [sampler] has the type [*counters]: *)
Inductive counter_variant : Type :=
| ExactCounter (c : counters)
| ShardedCounter (c : counters2).

Definition sampler_counter (s : sampler) : counter_variant :=
  ExactCounter (s_counts s).

Definition is_sharded (v : counter_variant) : bool :=
  match v with ShardedCounter _ => true | ExactCounter _ => false end.

Definition is_exact (v : counter_variant) : bool :=
  match v with ExactCounter _ => true | ShardedCounter _ => false end.

End Sampler.

(** The decision of the design document for the call that brings the count
    to [n]: forward within the burst allowance, then on every
    [thereafter]-th call. *)
Definition forwards (first thereafter n : Z) : bool :=
  (n <=? first) || ((n - first) mod thereafter =? 0).

Arguments Entry : clear implicits.
Arguments Facility : clear implicits.
Arguments sampler : clear implicits.
Arguments world : clear implicits.

(** ** A wrapped facility and entries for concrete runs

    Levels are booleans and the facility is enabled at level [true]; its
    [Check] adds the message to the accumulator, a list of messages. *)
Module Examples.

Definition facility : Facility bool (list string) :=
  {| Enabled := fun level => level;
     Facility_Check := fun ent ce => ent_Message ent :: ce |}.

Definition start : world bool (list string) :=
  {| now := 0; timers := []; forwarded := [] |}.

Definition foo : Entry bool := {| ent_Level := true; ent_Message := "foo" |}.

Definition foo_disabled : Entry bool :=
  {| ent_Level := false; ent_Message := "foo" |}.

(** The sampler [Sample(facility, 1000, 1, 3)] builds. *)
Definition sampler_1_3 : sampler bool (list string) :=
  {| s_Facility := facility; s_tick := 1000; s_counts := newCounters;
     s_first := 1; s_thereafter := 3 |}.

(** Two keys of nine bytes that differ in the first byte only. *)
Definition key1 : string := "a12345678".
Definition key2 : string := "b12345678".

(** Two keys with different slots. *)
Definition msg1 : string := "connection reset by peer".
Definition msg2 : string := "request served in 12ms".

End Examples.

(** ** Further definitions for the properties of the code *)

(** The bytes of a string read as one big-endian number. *)
Fixpoint big_endian_from (n : Z) (s : string) : Z :=
  match s with
  | EmptyString => n
  | String c s' => big_endian_from (n * 256 + byte_of c) s'
  end.

Definition big_endian (s : string) : Z := big_endian_from 0 s.

(** The state of a counter after a sequence of operations. *)
Fixpoint exec_counters (ops : list op) (c : counters) : result counters :=
  match ops with
  | [] => mret c
  | OpInc key :: ops' => exec_counters ops' (snd (counters_Inc key c))
  | OpReset key :: ops' => c' ← counters_Reset key c; exec_counters ops' c'
  end.

Fixpoint exec_counters2 (ops : list op) (c : counters2) : result counters2 :=
  match ops with
  | [] => mret c
  | OpInc key :: ops' =>
      '(_, c') ← counters2_Inc key c; exec_counters2 ops' c'
  | OpReset key :: ops' =>
      c' ← counters2_Reset key c; exec_counters2 ops' c'
  end.

(** How many of the operations selected by [sel] were [Inc]s since the last
    selected [Reset], starting from [n]. *)
Fixpoint incs_since_reset (sel : string → bool) (n : Z) (ops : list op) : Z :=
  match ops with
  | [] => n
  | OpInc key :: ops' =>
      incs_since_reset sel (if sel key then n + 1 else n) ops'
  | OpReset key :: ops' =>
      incs_since_reset sel (if sel key then 0 else n) ops'
  end.

(** *** The sampler as a system: calls, the clock and the timers *)
Section SamplerSystem.

Context {Level CheckedEntry : Type}.

(** One step of a sampler in its world: a [Check] call that returns, time
    passing, or a pending timer firing and returning. *)
Inductive sampler_step :
  sampler Level CheckedEntry * world Level CheckedEntry →
  sampler Level CheckedEntry * world Level CheckedEntry → Prop :=
| step_Check s w ent ce ce' s' w' :
    Check s ent ce w = Ok (ce', s', w') → sampler_step (s, w) (s', w')
| step_advance s w d :
    0 <= d → sampler_step (s, w) (s, advance d w)
| step_fire s w i s' w' :
    fire i s w = Some (Ok (s', w')) → sampler_step (s, w) (s', w').

(** How many entries of a list [Check] counts for [key] under the wrapped
    facility [fac]: those with that message and an enabled level. *)
Definition counted_for (fac : Facility Level CheckedEntry) (key : string)
    (ents : list (Entry Level)) : Z :=
  Z.of_nat (length (List.filter
                      (fun ent => bool_decide (ent_Message ent = key) &&
                                  Enabled fac (ent_Level ent)) ents)).

(** The key of every pending timer is in the counter. *)
Definition timers_live (s : sampler Level CheckedEntry)
    (w : world Level CheckedEntry) : Prop :=
  Forall (fun t => is_Some (s_counts s !! t_key t)) (timers w).

(** *** Samplers that share their counter

    [With] copies the pointer [s.counts] into the sampler it returns.  For
    that the counter objects live in a heap, a sampler holds the address of
    its counter, and a call loads the counter, runs and stores it back.  The
    method [With] of the wrapped facility is a parameter. *)
Context {Field : Type}.
Variable Facility_With :
  Facility Level CheckedEntry → list Field → Facility Level CheckedEntry.

Record sampler_ref : Type := {
  r_Facility : Facility Level CheckedEntry;
  r_tick : Z;
  r_counts : nat;
  r_first : Z;
  r_thereafter : Z
}.

(** The sampler value behind a reference: [None] for an address that holds
    no counter (a nil pointer). *)
Definition load (h : list counters) (r : sampler_ref)
  : option (sampler Level CheckedEntry) :=
  c ← h !! r_counts r;
  Some {| s_Facility := r_Facility r; s_tick := r_tick r; s_counts := c;
          s_first := r_first r; s_thereafter := r_thereafter r |}.

(** [Sample] with the counter allocated at a new address. *)
Definition Sample_ref (fac : Facility Level CheckedEntry)
    (tick first thereafter : Z) (h : list counters)
  : sampler_ref * list counters :=
  ({| r_Facility := fac; r_tick := tick; r_counts := length h;
      r_first := u64 first; r_thereafter := u64 thereafter |},
   h ++ [newCounters]).

Definition With (r : sampler_ref) (fields : list Field) : sampler_ref :=
  {| r_Facility := Facility_With (r_Facility r) fields;
     r_tick := r_tick r;
     r_counts := r_counts r;
     r_first := r_first r;
     r_thereafter := r_thereafter r |}.

Definition Check_ref (r : sampler_ref) (ent : Entry Level)
    (ce : CheckedEntry) (h : list counters) (w : world Level CheckedEntry)
  : result (CheckedEntry * list counters * world Level CheckedEntry) :=
  match load h r with
  | None => Panic NilDereference
  | Some s =>
      '(ce', s', w') ← Check s ent ce w;
      mret (ce', <[r_counts r := s_counts s']> h, w')
  end.

End SamplerSystem.

(** *** Further values for concrete runs *)
Module MoreExamples.

(** A sampler whose counter for ["foo"] stands at the largest [uint64]. *)
Definition sampler_at_max : sampler bool (list string) :=
  {| s_Facility := Examples.facility; s_tick := 1000;
     s_counts := {[ "foo" := 2 ^ 64 - 1 ]};
     s_first := 1; s_thereafter := 3 |}.

(** A sampler that has seen one call for ["foo"]. *)
Definition sampler_after_one : sampler bool (list string) :=
  {| s_Facility := Examples.facility; s_tick := 1000;
     s_counts := {[ "foo" := 1 ]};
     s_first := 1; s_thereafter := 3 |}.

(** A sampler that has seen five calls for ["foo"], and a world in which the
    timer armed by the second of them is due. *)
Definition sampler_after_five : sampler bool (list string) :=
  {| s_Facility := Examples.facility; s_tick := 1000;
     s_counts := {[ "foo" := 5 ]};
     s_first := 1; s_thereafter := 3 |}.

Definition world_timer_due : world bool (list string) :=
  {| now := 2000;
     timers := [{| t_deadline := 1000; t_key := "foo" |}];
     forwarded := [] |}.

(** A wrapped facility whose [With] returns the facility itself. *)
Definition facility_With (fac : Facility bool (list string))
    (fields : list string) : Facility bool (list string) := fac.

(** [Sample(facility, 1000, 1, 3)] on an empty heap. *)
Definition sampler_ref_1_3 : sampler_ref (Level := bool) (CheckedEntry := list string) :=
  fst (Sample_ref Examples.facility 1000 1 3 []).

Definition heap_1_3 : list counters :=
  snd (Sample_ref Examples.facility 1000 1 3 []).

End MoreExamples.

(** * Properties *)

(** ** Machine integers *)

Lemma u64_range (x : Z) : is_u64 (u64 x).
Proof. unfold is_u64, u64. apply Z.mod_pos_bound. lia. Qed.

Lemma u64_small (x : Z) : is_u64 x → u64 x = x.
Proof. unfold is_u64, u64. intros H. apply Z.mod_small. exact H. Qed.

Lemma u32_small (x : Z) : is_u32 x → u32 x = x.
Proof. unfold is_u32, u32. intros H. apply Z.mod_small. exact H. Qed.

Lemma u64_lxor (a b : Z) : u64 (Z.lxor a b) = Z.lxor (u64 a) (u64 b).
Proof.
  unfold u64. apply Z.bits_inj'. intros i Hi.
  rewrite Z.lxor_spec, !Z.testbit_mod_pow2, Z.lxor_spec by lia.
  destruct (i <? 64); simpl; [reflexivity | ].
  reflexivity.
Qed.

Lemma lxor_u64 (a b : Z) : is_u64 a → is_u64 b → is_u64 (Z.lxor a b).
Proof.
  intros Ha Hb.
  rewrite <- (u64_small a Ha), <- (u64_small b Hb), <- u64_lxor.
  apply u64_range.
Qed.

Lemma u64_shiftl_u64 (x k : Z) :
  0 <= k → u64 (Z.shiftl (u64 x) k) = u64 (Z.shiftl x k).
Proof.
  intros Hk. unfold u64. rewrite !Z.shiftl_mul_pow2 by exact Hk.
  apply Z.mul_mod_idemp_l. lia.
Qed.

Lemma u64_shiftl_high (x k : Z) : 64 <= k → u64 (Z.shiftl x k) = 0.
Proof.
  intros Hk. unfold u64. rewrite Z.shiftl_mul_pow2 by lia.
  replace k with ((k - 64) + 64) by lia.
  rewrite Z.pow_add_r by lia.
  rewrite Z.mul_assoc. apply Z.mod_mul. lia.
Qed.

Lemma byte_of_range (c : ascii) : 0 <= byte_of c < 256.
Proof.
  unfold byte_of. pose proof (N_ascii_bounded c) as H.
  lia.
Qed.

Lemma byte_of_u64 (c : ascii) : is_u64 (byte_of c).
Proof. pose proof (byte_of_range c). unfold is_u64. lia. Qed.

(** ** The fold [xorstring] *)

(** The first operand of the [|] in the loop body is always zero: the low
    byte of [n], shifted right by 56 bits. *)
Lemma low_byte_shifted_out (n : Z) : Z.shiftr (Z.land n 255) 56 = 0.
Proof.
  change 255 with (Z.ones 8).
  rewrite Z.land_ones, Z.shiftr_div_pow2 by lia.
  apply Z.div_small.
  pose proof (Z.mod_pos_bound n (2 ^ 8)). lia.
Qed.

(** So one iteration is a plain left shift by a byte, followed by the xor. *)
Lemma xorstring_step_shift (n : Z) (c : ascii) :
  xorstring_step n c = Z.lxor (u64 (Z.shiftl n 8)) (byte_of c).
Proof.
  unfold xorstring_step. cbv zeta.
  rewrite low_byte_shifted_out, Z.lor_0_l. reflexivity.
Qed.

Lemma xorstring_step_u64 (n : Z) (c : ascii) : is_u64 (xorstring_step n c).
Proof.
  rewrite xorstring_step_shift.
  apply lxor_u64; [apply u64_range | apply byte_of_u64].
Qed.

Lemma xorstring_from_u64 (s : string) (n : Z) :
  is_u64 n → is_u64 (xorstring_from n s).
Proof.
  revert n. induction s as [| c s IH]; intros n Hn; simpl.
  - exact Hn.
  - apply IH, xorstring_step_u64.
Qed.

Lemma xorstring_u64 (s : string) : is_u64 (xorstring s).
Proof. apply xorstring_from_u64. unfold is_u64. lia. Qed.

Lemma xorstring_from_app (p s : string) (n : Z) :
  xorstring_from n (String.append p s) = xorstring_from (xorstring_from n p) s.
Proof.
  revert n. induction p as [| c p IH]; intros n; simpl.
  - reflexivity.
  - apply IH.
Qed.

(** The state a string is folded into, as a function of the start state: the
    start state is shifted left by one byte per character. *)
Lemma xorstring_from_start (s : string) (n : Z) :
  is_u64 n →
  xorstring_from n s =
  Z.lxor (u64 (Z.shiftl n (8 * Z.of_nat (String.length s)))) (xorstring_from 0 s).
Proof.
  revert n. induction s as [| c s IH]; intros n Hn.
  - simpl. rewrite Z.shiftl_0_r, Z.lxor_0_r, u64_small; auto.
  - cbn [xorstring_from String.length].
    rewrite (IH (xorstring_step n c)) by apply xorstring_step_u64.
    rewrite (IH (xorstring_step 0 c)) by apply xorstring_step_u64.
    rewrite !xorstring_step_shift.
    rewrite Z.shiftl_0_l. change (u64 0) with 0. rewrite Z.lxor_0_l.
    set (k := 8 * Z.of_nat (String.length s)).
    assert (Hk : 0 <= k) by (unfold k; lia).
    rewrite Z.shiftl_lxor, u64_lxor.
    rewrite u64_shiftl_u64 by exact Hk.
    rewrite Z.shiftl_shiftl by lia.
    replace (8 * Z.of_nat (S (String.length s))) with (8 + k) by (unfold k; lia).
    rewrite Z.lxor_assoc. reflexivity.
Qed.

(** Once eight more characters follow, nothing of the start state is left. *)
Lemma xorstring_from_forgets (s : string) (n : Z) :
  is_u64 n → (8 <= String.length s)%nat →
  xorstring_from n s = xorstring_from 0 s.
Proof.
  intros Hn Hlen. rewrite xorstring_from_start by exact Hn.
  rewrite u64_shiftl_high by lia.
  apply Z.lxor_0_l.
Qed.

Lemma xorstring_forgets_prefix (p s : string) :
  (8 <= String.length s)%nat → xorstring (String.append p s) = xorstring s.
Proof.
  intros Hlen. unfold xorstring. rewrite xorstring_from_app.
  apply xorstring_from_forgets; [apply xorstring_u64 | exact Hlen].
Qed.

(** ** The hash against the reference algorithm *)

Lemma bytes_of_byte_of (c : ascii) : Z.of_nat (nat_of_ascii c) = byte_of c.
Proof. unfold nat_of_ascii, byte_of. apply N_nat_Z. Qed.

Lemma xorstring_from_fold (s : string) (n : Z) :
  xorstring_from n s = fold_left Reference.fold_step (Reference.bytes_of s) n.
Proof.
  revert n. induction s as [| c s IH]; intros n; simpl.
  - reflexivity.
  - rewrite IH. f_equal.
    unfold xorstring_step, Reference.fold_step, u64.
    rewrite bytes_of_byte_of. reflexivity.
Qed.

Lemma rot_range (n : Z) : is_u64 n → 0 <= Z.shiftr n 59 < 32.
Proof.
  unfold is_u64. intros Hn. rewrite Z.shiftr_div_pow2 by lia.
  split.
  - apply Z.div_pos; lia.
  - apply Z.div_lt_upper_bound; lia.
Qed.

(** Negating the rotation amount as a [uint32] or as an integer leaves the
    same five low bits. *)
Lemma neg_rot_mask (rot : Z) : Z.land (u32 (- rot)) 31 = Z.land (- rot) 31.
Proof.
  change 31 with (Z.ones 5). rewrite !Z.land_ones by lia.
  unfold u32. apply Z.mod_mod_divide.
  exists (2 ^ 27). reflexivity.
Qed.

Lemma xshrr_permute (n : Z) : is_u64 n → xshrr n = Reference.permute n.
Proof.
  intros Hn. unfold xshrr, Reference.permute. cbv zeta.
  pose proof (rot_range n Hn) as Hrot.
  rewrite (u32_small (Z.shiftr n 59)) by (unfold is_u32; lia).
  rewrite neg_rot_mask. reflexivity.
Qed.

Lemma xshrr_u32 (n : Z) : is_u64 n → is_u32 (xshrr n).
Proof.
  intros Hn. pose proof (rot_range n Hn) as Hrot.
  unfold xshrr. cbv zeta.
  rewrite (u32_small (Z.shiftr n 59)) by (unfold is_u32; lia).
  set (x := u32 _). set (r := Z.shiftr n 59) in *.
  set (y := u32 (Z.shiftl x _)).
  assert (Hx : 0 <= x < 2 ^ 32) by (apply Z.mod_pos_bound; lia).
  assert (Hy : 0 <= y < 2 ^ 32) by (apply Z.mod_pos_bound; lia).
  assert (Hs : 0 <= Z.shiftr x r < 2 ^ 32).
  { rewrite Z.shiftr_div_pow2 by lia. split.
    - apply Z.div_pos; lia.
    - apply Z.le_lt_trans with x; [ | lia].
      apply Z.div_le_upper_bound; [lia | ].
      assert (1 <= 2 ^ r) by (apply (Z.pow_le_mono_r 2 0 r); lia). nia. }
  unfold is_u32. split.
  - apply Z.lor_nonneg. lia.
  - destruct (Z.eq_dec (Z.lor (Z.shiftr x r) y) 0) as [-> | Hne]; [lia | ].
    apply Z.log2_lt_pow2; [ | rewrite Z.log2_lor by lia ].
    + assert (0 <= Z.lor (Z.shiftr x r) y) by (apply Z.lor_nonneg; lia). lia.
    + apply Z.max_lub_lt.
      * destruct (Z.eq_dec (Z.shiftr x r) 0) as [-> | ?]; [reflexivity | ].
        apply Z.log2_lt_pow2; lia.
      * destruct (Z.eq_dec y 0) as [-> | ?]; [reflexivity | ].
        apply Z.log2_lt_pow2; lia.
Qed.

Lemma hash_range (key : string) : 0 <= hash key < _counters2Width.
Proof. unfold hash. apply Z.mod_pos_bound. reflexivity. Qed.

(** C4. The slot index the sharded counter computes for a key is the one the
    reference algorithm of section 4.1 gives: fold the bytes into a 64-bit
    state, permute it with XSH-RR, reduce modulo the width [W] of the table.
    It is a function of the key alone: equal keys have equal slot indices, and
    the index is always inside the table. *)
Theorem hash_is_reference_slot :
  ∀ key : string,
    hash key = Reference.slot _counters2Width key ∧
    0 <= hash key < _counters2Width ∧
    ∀ key' : string, key = key' → hash key = hash key'.
Proof.
  intros key. split; [ | split].
  - unfold hash, Reference.slot, Reference.place, Reference.fold.
    rewrite <- xorstring_from_fold.
    fold (xorstring key).
    rewrite xshrr_permute by apply xorstring_u64.
    reflexivity.
  - apply hash_range.
  - intros key' ->. reflexivity.
Qed.

Lemma hash_is_reference_slot_witness :
  hash "foo" = Reference.slot _counters2Width "foo" ∧
  hash "foo" = hash "foo".
Proof.
  destruct (hash_is_reference_slot "foo") as (Href & _ & Hdet).
  split; [exact Href | exact (Hdet "foo" eq_refl)].
Defined.

(** C6. The fold does not rotate: the byte that leaves the 64-bit state at
    the top is dropped.  A byte with eight or more bytes after it has no
    influence on the folded state: whatever the byte at such a position is,
    the state is the same. *)
Theorem xorstring_ignores_early_byte :
  ∀ (p : string) (a b : ascii) (s : string),
    (8 <= String.length s)%nat →
    xorstring (String.append p (String a s)) =
    xorstring (String.append p (String b s)).
Proof.
  intros p a b s Hlen. unfold xorstring.
  rewrite !xorstring_from_app. cbn [xorstring_from].
  rewrite (xorstring_from_forgets s (xorstring_step _ a))
    by (apply xorstring_step_u64 || exact Hlen).
  rewrite (xorstring_from_forgets s (xorstring_step _ b))
    by (apply xorstring_step_u64 || exact Hlen).
  reflexivity.
Qed.

Lemma xorstring_ignores_early_byte_witness :
  (8 <= String.length "bcdefghi")%nat ∧
  xorstring (String.append "" (String "a" "bcdefghi")) =
  xorstring (String.append "" (String "z" "bcdefghi")).
Proof.
  split; [ simpl; lia | ].
  apply (xorstring_ignores_early_byte "" "a" "z" "bcdefghi"). simpl. lia.
Defined.

(** ** The exact counter *)

Lemma counters_Inc_count (key : string) (c : counters) :
  fst (counters_Inc key c) = u64 (default 0 (c !! key) + 1) ∧
  snd (counters_Inc key c) = <[key := u64 (default 0 (c !! key) + 1)]> c.
Proof.
  unfold counters_Inc. destruct (c !! key) as [count | ]; simpl; auto.
Qed.

Lemma counters_Reset_seen (key : string) (c : counters) :
  is_Some (c !! key) → counters_Reset key c = Ok (<[key := 0]> c).
Proof. intros [count H]. unfold counters_Reset. rewrite H. reflexivity. Qed.

(** [Reset] on the exact counter is not total: for a key that was never
    passed to [Inc] the map lookup gives the nil pointer and [Store]
    dereferences it, so the call panics instead of completing. *)
Theorem counters_Reset_unseen_key_panics :
  ∀ (key : string) (c : counters),
    c !! key = None → counters_Reset key c = Panic NilDereference.
Proof. intros key c H. unfold counters_Reset. rewrite H. reflexivity. Qed.

Lemma counters_Reset_unseen_key_panics_witness :
  newCounters !! "never seen" = None ∧
  counters_Reset "never seen" newCounters = Panic NilDereference.
Proof.
  split; [ reflexivity | ].
  apply (counters_Reset_unseen_key_panics "never seen" newCounters).
  reflexivity.
Defined.

(** ** The sharded counter *)

Lemma bucket_mask_mod (i : Z) :
  Z.land i _counters2BucketMask = i mod _counters2PerLock.
Proof.
  change _counters2BucketMask with (Z.ones 3).
  rewrite Z.land_ones by lia. reflexivity.
Qed.

Lemma slot_index_inj (i j : Z) :
  i / _counters2PerLock = j / _counters2PerLock →
  Z.land i _counters2BucketMask = Z.land j _counters2BucketMask →
  i = j.
Proof.
  rewrite !bucket_mask_mod. intros Hd Hm.
  rewrite (Z.div_mod i _counters2PerLock), (Z.div_mod j _counters2PerLock)
    by discriminate.
  congruence.
Qed.

Lemma slot_index_bounds (i : Z) :
  0 <= i < _counters2Width →
  0 <= i / _counters2PerLock ∧
  0 <= Z.land i _counters2BucketMask ∧
  (Z.to_nat (i / _counters2PerLock) < Z.to_nat _counters2Width)%nat ∧
  (Z.to_nat (Z.land i _counters2BucketMask) < Z.to_nat _counters2PerLock)%nat.
Proof.
  rewrite bucket_mask_mod.
  change _counters2PerLock with 8. change _counters2Width with 8192.
  intros Hi.
  pose proof (Z.mod_pos_bound i 8).
  assert (0 <= i / 8 < 1024).
  { split; [apply Z.div_pos; lia | apply Z.div_lt_upper_bound; lia]. }
  lia.
Qed.

Lemma newCounters2_shape : counters2_shape newCounters2.
Proof.
  split.
  - apply length_replicate.
  - apply Forall_replicate. apply length_replicate.
Qed.

Lemma newCounters2_slot (i : Z) :
  0 <= i < _counters2Width → slot_of newCounters2 i = Some 0.
Proof.
  intros Hi. destruct (slot_index_bounds i Hi) as (_ & _ & Hb & Hs).
  unfold slot_of, newCounters2.
  rewrite lookup_replicate_2 by exact Hb.
  exact (lookup_replicate_2 _ 0 _ Hs).
Qed.

(** Inside the bounds every slot of a well-shaped table exists. *)
Lemma slot_of_shape (c : counters2) (i : Z) :
  counters2_shape c → 0 <= i < _counters2Width →
  ∃ b n, c !! Z.to_nat (i / _counters2PerLock) = Some b ∧
         b_counts b !! Z.to_nat (Z.land i _counters2BucketMask) = Some n ∧
         slot_of c i = Some n.
Proof.
  intros [Hlen Hall] Hi. destruct (slot_index_bounds i Hi) as (_ & _ & Hb & Hs).
  destruct (lookup_lt_is_Some_2 c (Z.to_nat (i / _counters2PerLock)))
    as [b Hcb]; [lia | ].
  pose proof (Forall_lookup_1 _ _ _ _ Hall Hcb) as Hbl. simpl in Hbl.
  destruct (lookup_lt_is_Some_2 (b_counts b)
              (Z.to_nat (Z.land i _counters2BucketMask))) as [n Hn]; [lia | ].
  exists b, n. unfold slot_of. rewrite Hcb. simpl. auto.
Qed.

(** Writing one slot in place: that slot holds the value, every other slot
    and the shape of the table are as before. *)
Lemma slot_write (c : counters2) (i v : Z) (b : bucket2) :
  counters2_shape c → 0 <= i < _counters2Width →
  c !! Z.to_nat (i / _counters2PerLock) = Some b →
  let c' :=
    <[Z.to_nat (i / _counters2PerLock) :=
        {| b_counts := <[Z.to_nat (Z.land i _counters2BucketMask) := v]> (b_counts b) |}]> c in
  counters2_shape c' ∧
  slot_of c' i = Some v ∧
  ∀ j, 0 <= j < _counters2Width → j ≠ i → slot_of c' j = slot_of c j.
Proof.
  intros [Hlen Hall] Hi Hcb c'.
  destruct (slot_index_bounds i Hi) as (Hbi & Hsi & Hb & Hs).
  pose proof (Forall_lookup_1 _ _ _ _ Hall Hcb) as Hbl. simpl in Hbl.
  split; [ | split].
  - split.
    + unfold c'. rewrite length_insert. exact Hlen.
    + apply Forall_insert; [exact Hall | ]. simpl.
      rewrite length_insert. exact Hbl.
  - unfold slot_of, c'.
    rewrite list_lookup_insert_eq by lia. simpl.
    apply list_lookup_insert_eq. lia.
  - intros j Hj Hne. unfold slot_of, c'.
    destruct (decide (Z.to_nat (i / _counters2PerLock) =
                      Z.to_nat (j / _counters2PerLock))) as [Heq | Hneq].
    + rewrite <- Heq, list_lookup_insert_eq, Hcb by lia. simpl.
      apply list_lookup_insert_ne.
      intros Hm. apply Hne. symmetry.
      destruct (slot_index_bounds j Hj) as (Hbj & Hsj & _ & _).
      apply slot_index_inj; lia.
    + rewrite list_lookup_insert_ne by exact Hneq. reflexivity.
Qed.

Lemma counters2_Inc_slot (key : string) (c : counters2) :
  counters2_shape c →
  ∃ n c', slot_of c (hash key) = Some n ∧
          counters2_Inc key c = Ok (u64 (n + 1), c') ∧
          counters2_shape c' ∧
          slot_of c' (hash key) = Some (u64 (n + 1)) ∧
          ∀ j, 0 <= j < _counters2Width → j ≠ hash key →
               slot_of c' j = slot_of c j.
Proof.
  intros Hshape. pose proof (hash_range key) as Hi.
  destruct (slot_of_shape c (hash key) Hshape Hi) as (b & n & Hcb & Hn & Hslot).
  destruct (slot_write c (hash key) (u64 (n + 1)) b Hshape Hi Hcb)
    as (Hshape' & Hnew & Hother).
  eexists n, _. split; [exact Hslot | ].
  split; [ | split; [exact Hshape' | split; [exact Hnew | exact Hother]]].
  unfold counters2_Inc, bucket2_inc. cbv zeta.
  rewrite Hcb, Hn. reflexivity.
Qed.

Lemma counters2_Reset_slot (key : string) (c : counters2) :
  counters2_shape c →
  ∃ c', counters2_Reset key c = Ok c' ∧
        counters2_shape c' ∧
        slot_of c' (hash key) = Some 0 ∧
        ∀ j, 0 <= j < _counters2Width → j ≠ hash key →
             slot_of c' j = slot_of c j.
Proof.
  intros Hshape. pose proof (hash_range key) as Hi.
  destruct (slot_of_shape c (hash key) Hshape Hi) as (b & n & Hcb & Hn & Hslot).
  destruct (slot_write c (hash key) 0 b Hshape Hi Hcb)
    as (Hshape' & Hnew & Hother).
  eexists. split; [ | split; [exact Hshape' | split; [exact Hnew | exact Hother]]].
  unfold counters2_Reset, bucket2_reset. cbv zeta.
  rewrite Hcb, Hn. reflexivity.
Qed.

(** *** The sharded counter against the exact counter *)

Section Refinement.

(** The keys in use; no two of them select the same slot. *)
Variable keys : string → Prop.
Hypothesis keys_apart :
  ∀ k1 k2, keys k1 → keys k2 → hash k1 = hash k2 → k1 = k2.

Lemma slots_agree_Inc (key : string) (m : counters) (c : counters2) :
  keys key → slots_agree keys m c →
  ∃ c', counters2_Inc key c = Ok (fst (counters_Inc key m), c') ∧
        slots_agree keys (snd (counters_Inc key m)) c'.
Proof.
  intros Hkey [Hshape Hslots].
  destruct (counters2_Inc_slot key c Hshape)
    as (n & c' & Hn & Hinc & Hshape' & Hnew & Hother).
  rewrite (Hslots key Hkey) in Hn. injection Hn as <-.
  destruct (counters_Inc_count key m) as [-> ->].
  exists c'. split; [exact Hinc | ].
  split; [exact Hshape' | ].
  intros k Hk. destruct (decide (key = k)) as [<- | Hne].
  - rewrite lookup_insert_eq. exact Hnew.
  - rewrite lookup_insert_ne by exact Hne.
    rewrite Hother; [apply Hslots, Hk | apply hash_range | ].
    intros Heq. apply Hne. symmetry. apply keys_apart; auto.
Qed.

Lemma slots_agree_Reset (key : string) (m : counters) (c : counters2) :
  keys key → slots_agree keys m c →
  ∃ c', counters2_Reset key c = Ok c' ∧ slots_agree keys (<[key := 0]> m) c'.
Proof.
  intros Hkey [Hshape Hslots].
  destruct (counters2_Reset_slot key c Hshape)
    as (c' & Hreset & Hshape' & Hnew & Hother).
  exists c'. split; [exact Hreset | ].
  split; [exact Hshape' | ].
  intros k Hk. destruct (decide (key = k)) as [<- | Hne].
  - rewrite lookup_insert_eq. exact Hnew.
  - rewrite lookup_insert_ne by exact Hne.
    rewrite Hother; [apply Hslots, Hk | apply hash_range | ].
    intros Heq. apply Hne. symmetry. apply keys_apart; auto.
Qed.

Lemma run_counters2_refines (ops : list op) :
  ∀ (seen : list string) (m : counters) (c : counters2),
    (∀ o, o ∈ ops → keys (op_key o)) →
    (∀ k, k ∈ seen → is_Some (m !! k)) →
    resets_follow_incs seen ops = true →
    slots_agree keys m c →
    run_counters2 ops c = run_counters ops m.
Proof.
  induction ops as [| o ops IH]; intros seen m c Hkeys Hseen Hwf Hagree.
  - reflexivity.
  - assert (Hko : keys (op_key o)) by (apply Hkeys; left).
    assert (Hkeys' : ∀ o', o' ∈ ops → keys (op_key o'))
      by (intros o' Ho'; apply Hkeys; right; exact Ho').
    destruct o as [key | key]; simpl in *.
    + destruct (slots_agree_Inc key m c Hko Hagree) as (c' & Hinc & Hagree').
      rewrite Hinc. destruct (counters_Inc key m) as [n m'] eqn:Hm.
      simpl in *.
      rewrite (IH (key :: seen) m' c'); auto.
      intros k Hk. apply elem_of_cons in Hk as [-> | Hk].
      * destruct (counters_Inc_count key m) as [_ Hsnd].
        rewrite Hm in Hsnd. simpl in Hsnd. rewrite Hsnd, lookup_insert_eq.
        eauto.
      * destruct (counters_Inc_count key m) as [_ Hsnd].
        rewrite Hm in Hsnd. simpl in Hsnd. rewrite Hsnd.
        destruct (decide (key = k)) as [-> | Hne].
        -- rewrite lookup_insert_eq. eauto.
        -- rewrite lookup_insert_ne by exact Hne. apply Hseen, Hk.
    + apply andb_prop in Hwf as [Hin Hwf].
      apply bool_decide_eq_true_1 in Hin.
      destruct (slots_agree_Reset key m c Hko Hagree) as (c' & Hreset & Hagree').
      rewrite Hreset, (counters_Reset_seen key m) by (apply Hseen, Hin).
      simpl. apply (IH seen); auto.
      intros k Hk. destruct (decide (key = k)) as [-> | Hne].
      * rewrite lookup_insert_eq. eauto.
      * rewrite lookup_insert_ne by exact Hne. apply Hseen, Hk.
Qed.

End Refinement.

Lemma slots_agree_new (keys : string → Prop) :
  slots_agree keys newCounters newCounters2.
Proof.
  split; [apply newCounters2_shape | ].
  intros k _. rewrite newCounters2_slot by apply hash_range.
  reflexivity.
Qed.

Lemma collision_free_apart (ops : list op) :
  collision_free ops = true →
  ∀ k1 k2, (∃ o, o ∈ ops ∧ op_key o = k1) → (∃ o, o ∈ ops ∧ op_key o = k2) →
           hash k1 = hash k2 → k1 = k2.
Proof.
  unfold collision_free. intros Hcf k1 k2 (o1 & Ho1 & <-) (o2 & Ho2 & <-) Hh.
  rewrite forallb_forall in Hcf.
  apply list_elem_of_In in Ho1, Ho2.
  specialize (Hcf o1 Ho1). rewrite forallb_forall in Hcf.
  specialize (Hcf o2 Ho2).
  apply Z.eqb_eq in Hh. rewrite Hh in Hcf. simpl in Hcf.
  apply String.eqb_eq. exact Hcf.
Qed.

(** The exact counter returns counts only for sequences in which every
    [Reset] comes after an [Inc] of its key. *)
Lemma run_counters_Ok_follows (ops : list op) :
  ∀ (seen : list string) (m : counters) (counts : list Z),
    (∀ k, is_Some (m !! k) → k ∈ seen) →
    run_counters ops m = Ok counts →
    resets_follow_incs seen ops = true.
Proof.
  induction ops as [| o ops IH]; intros seen m counts Hseen Hrun.
  - reflexivity.
  - destruct o as [key | key]; cbn [run_counters resets_follow_incs] in *.
    + destruct (counters_Inc_count key m) as [_ Hsnd].
      destruct (counters_Inc key m) as [n m']. simpl in Hsnd. subst m'.
      destruct (run_counters ops _) as [ns | p] eqn:R; [ | discriminate Hrun].
      eapply IH; [ | exact R].
      intros k Hk. apply elem_of_cons.
      destruct (decide (key = k)) as [<- | Hne].
      * left. reflexivity.
      * right. rewrite lookup_insert_ne in Hk by exact Hne. apply Hseen, Hk.
    + unfold counters_Reset in Hrun.
      destruct (m !! key) as [v | ] eqn:Hkey; [ | discriminate Hrun].
      rewrite bool_decide_eq_true_2 by (apply Hseen; rewrite Hkey; eauto).
      simpl in Hrun. eapply IH; [ | exact Hrun].
      intros k Hk. destruct (decide (key = k)) as [<- | Hne].
      * apply Hseen. rewrite Hkey. eauto.
      * rewrite lookup_insert_ne in Hk by exact Hne. apply Hseen, Hk.
Qed.

(** C5. [Inc] on the sharded counter returns the value the slot at
    [hash key] holds after the increment and touches no other slot; two keys
    with the same hash count into one slot; and for every sequence of [Inc]
    and [Reset] calls in which no two distinct keys collide, the sharded
    counter returns the counts the exact counter returns: on every sequence
    for which the exact counter returns counts, which are those in which
    every [Reset] comes after an [Inc] of its key. *)
Theorem counters2_Inc_refines_counters :
  (∀ (key : string) (c : counters2),
     counters2_shape c →
     ∃ n c', slot_of c (hash key) = Some n ∧
             counters2_Inc key c = Ok (u64 (n + 1), c') ∧
             slot_of c' (hash key) = Some (u64 (n + 1)) ∧
             ∀ j, 0 <= j < _counters2Width → j ≠ hash key →
                  slot_of c' j = slot_of c j) ∧
  (∀ (key1 key2 : string) (c : counters2),
     counters2_shape c → hash key1 = hash key2 →
     ∃ n c1 c2, slot_of c (hash key1) = Some n ∧
                counters2_Inc key1 c = Ok (u64 (n + 1), c1) ∧
                counters2_Inc key2 c1 = Ok (u64 (u64 (n + 1) + 1), c2)) ∧
  (∀ ops : list op,
     collision_free ops = true →
     resets_follow_incs [] ops = true →
     run_counters2 ops newCounters2 = run_counters ops newCounters) ∧
  (∀ (ops : list op) (counts : list Z),
     collision_free ops = true →
     run_counters ops newCounters = Ok counts →
     run_counters2 ops newCounters2 = Ok counts).
Proof.
  assert (Hrefines : ∀ ops : list op,
            collision_free ops = true →
            resets_follow_incs [] ops = true →
            run_counters2 ops newCounters2 = run_counters ops newCounters).
  { intros ops Hcf Hwf.
    apply (run_counters2_refines
             (fun k => ∃ o, o ∈ ops ∧ op_key o = k)
             (collision_free_apart ops Hcf) ops []).
    + intros o Ho. exists o. auto.
    + intros k Hk. apply elem_of_nil in Hk. destruct Hk.
    + exact Hwf.
    + apply slots_agree_new. }
  split; [ | split; [ | split]].
  - intros key c Hshape.
    destruct (counters2_Inc_slot key c Hshape)
      as (n & c' & Hn & Hinc & _ & Hnew & Hother).
    exists n, c'. auto.
  - intros key1 key2 c Hshape Hcoll.
    destruct (counters2_Inc_slot key1 c Hshape)
      as (n & c1 & Hn & Hinc1 & Hshape1 & Hnew & _).
    destruct (counters2_Inc_slot key2 c1 Hshape1)
      as (n2 & c2 & Hn2 & Hinc2 & _).
    rewrite <- Hcoll, Hnew in Hn2. injection Hn2 as <-.
    exists n, c1, c2. auto.
  - exact Hrefines.
  - intros ops counts Hcf Hrun.
    rewrite <- Hrun. apply Hrefines; [exact Hcf | ].
    apply (run_counters_Ok_follows ops [] newCounters counts); [ | exact Hrun].
    intros k [v Hv]. unfold newCounters in Hv. rewrite lookup_empty in Hv.
    discriminate Hv.
Qed.

(** ** The sampler *)

Section SamplerFacts.

Context {Level CheckedEntry : Type}.

Implicit Types (s : sampler Level CheckedEntry) (w : world Level CheckedEntry).
Implicit Types (ent : Entry Level) (ce : CheckedEntry).

Lemma counters_Inc_u64 (key : string) (c : counters) :
  is_u64 (fst (counters_Inc key c)).
Proof.
  destruct (counters_Inc_count key c) as [-> _]. apply u64_range.
Qed.

Lemma count_of_with_counts s (key k : string) (n : Z) :
  count_of (with_counts s (<[key := n]> (s_counts s))) k =
  if decide (key = k) then n else count_of s k.
Proof.
  unfold count_of. simpl. destruct (decide (key = k)) as [-> | Hne].
  - rewrite lookup_insert_eq. reflexivity.
  - rewrite lookup_insert_ne by exact Hne. reflexivity.
Qed.

Lemma count_of_u64 s (key : string) : sampler_ok s → is_u64 (count_of s key).
Proof.
  intros (_ & _ & Hc). unfold count_of.
  destruct (s_counts s !! key) as [count | ] eqn:E; simpl.
  - eapply Hc, E.
  - unfold is_u64. lia.
Qed.

Lemma sampler_ok_with_counts s (key : string) (n : Z) :
  sampler_ok s → is_u64 n →
  sampler_ok (with_counts s (<[key := n]> (s_counts s))).
Proof.
  intros (Hf & Ht & Hc) Hn. split; [exact Hf | split; [exact Ht | ]].
  simpl. intros k count. destruct (decide (key = k)) as [-> | Hne].
  - rewrite lookup_insert_eq. intros [= <-]. exact Hn.
  - rewrite lookup_insert_ne by exact Hne. apply Hc.
Qed.

(** The guard of the timer, [n > first && n == first+1] in [uint64]
    arithmetic, says that the count has reached [first + 1]. *)
Lemma arm_guard (first n : Z) :
  is_u64 first → is_u64 n →
  (first <? n) && (n =? u64 (first + 1)) = (n =? first + 1).
Proof.
  unfold is_u64, u64. intros Hf Hn.
  destruct (Z.eq_dec first (2 ^ 64 - 1)) as [-> | Hne].
  - change ((2 ^ 64 - 1 + 1) mod 2 ^ 64) with 0.
    destruct (Z.ltb_spec (2 ^ 64 - 1) n), (Z.eqb_spec n 0),
             (Z.eqb_spec n (2 ^ 64 - 1 + 1)); simpl; auto; lia.
  - rewrite Z.mod_small by lia.
    destruct (Z.ltb_spec first n), (Z.eqb_spec n (first + 1)); simpl; auto; lia.
Qed.

(** What an enabled [Check] does, in one equation: the count of the message
    goes up by one, the timer is armed when the count reaches [first + 1], and
    the entry is forwarded or dropped as [forwards] says. *)
Lemma Check_enabled s ent ce w :
  Enabled (s_Facility s) (ent_Level ent) = true →
  is_u64 (s_first s) → s_thereafter s ≠ 0 →
  let n := u64 (count_of s (ent_Message ent) + 1) in
  let s' := with_counts s (<[ent_Message ent := n]> (s_counts s)) in
  let w1 := if n =? s_first s + 1
            then AfterFunc (s_tick s) (ent_Message ent) w else w in
  Check s ent ce w =
  Ok (if forwards (s_first s) (s_thereafter s) n
      then (Facility_Check (s_Facility s) ent ce, s', forward ent ce w1)
      else (ce, s', w1)).
Proof.
  intros Hen Hf Ht n s' w1. unfold Check. rewrite Hen. simpl negb. cbv iota.
  destruct (counters_Inc_count (ent_Message ent) (s_counts s)) as [Hn Hc].
  destruct (counters_Inc (ent_Message ent) (s_counts s)) as [n0 c0].
  simpl in Hn, Hc. fold (count_of s (ent_Message ent)) in Hn, Hc.
  fold n in Hn, Hc. subst n0 c0. fold s'.
  assert (Hnr : is_u64 n) by apply u64_range.
  pose proof (arm_guard (s_first s) n Hf Hnr) as Harm.
  change (s_first s') with (s_first s).
  change (s_thereafter s') with (s_thereafter s).
  change (s_tick s') with (s_tick s).
  change (s_Facility s') with (s_Facility s).
  unfold forwards.
  destruct (Z.ltb_spec (s_first s) n) as [Hlt | Hge].
  - simpl in Harm. rewrite Harm. fold w1.
    unfold u64_rem. destruct (Z.eqb_spec (s_thereafter s) 0) as [? | _]; [tauto | ].
    simpl. rewrite (u64_small (n - s_first s)) by (unfold is_u64 in *; lia).
    destruct (Z.leb_spec n (s_first s)); [lia | ]. simpl.
    destruct ((n - s_first s) mod s_thereafter s =? 0); reflexivity.
  - destruct (Z.leb_spec n (s_first s)); [ | lia]. simpl.
    unfold w1. destruct (Z.eqb_spec n (s_first s + 1)); [lia | reflexivity].
Qed.

Lemma Check_disabled s ent ce w :
  Enabled (s_Facility s) (ent_Level ent) = false →
  Check s ent ce w = Ok (ce, s, w).
Proof. intros Hdis. unfold Check. rewrite Hdis. reflexivity. Qed.

(** C9. For an entry whose level the wrapped facility reports as not
    enabled, [Check] returns the accumulator as it is and changes nothing:
    the sampler, with the count of every key, and the world are the same
    after the call. *)
Theorem Check_disabled_changes_nothing :
  ∀ s ent ce w,
    Enabled (s_Facility s) (ent_Level ent) = false →
    Check s ent ce w = Ok (ce, s, w) ∧
    ∀ ce' s' w', Check s ent ce w = Ok (ce', s', w') →
      ce' = ce ∧ w' = w ∧ ∀ key, s_counts s' !! key = s_counts s !! key.
Proof.
  intros s ent ce w Hdis.
  pose proof (Check_disabled s ent ce w Hdis) as H.
  split; [exact H | ].
  intros ce' s' w' H'. rewrite H in H'. injection H' as <- <- <-. auto.
Qed.

(** *** Runs of calls for one message *)

Lemma Check_enabled_step s ent ce w :
  Enabled (s_Facility s) (ent_Level ent) = true →
  sampler_ok s →
  ∃ ce' s' w',
    Check s ent ce w = Ok (ce', s', w') ∧
    sampler_ok s' ∧ same_policy s s' ∧
    (∀ k, count_of s' k =
          if decide (ent_Message ent = k)
          then u64 (count_of s (ent_Message ent) + 1) else count_of s k) ∧
    is_Some (s_counts s' !! ent_Message ent) ∧
    now w' = now w ∧
    timers w' =
      timers w ++
      (if count_of s' (ent_Message ent) =? s_first s + 1
       then [{| t_deadline := now w + s_tick s; t_key := ent_Message ent |}]
       else []) ∧
    (if forwards (s_first s) (s_thereafter s) (count_of s' (ent_Message ent))
     then ce' = Facility_Check (s_Facility s) ent ce ∧
          forwarded w' = forwarded w ++ [(ent, ce)]
     else ce' = ce ∧ forwarded w' = forwarded w).
Proof.
  intros Hen Hok. pose proof Hok as (Hf & Ht & Hc).
  pose proof (Check_enabled s ent ce w Hen Hf Ht) as HC. cbv zeta in HC.
  set (n := u64 (count_of s (ent_Message ent) + 1)) in *.
  set (s' := with_counts s (<[ent_Message ent := n]> (s_counts s))) in *.
  assert (Hn : count_of s' (ent_Message ent) = n).
  { unfold s'. rewrite count_of_with_counts, decide_True; reflexivity. }
  assert (Hok' : sampler_ok s')
    by (apply sampler_ok_with_counts; [exact Hok | apply u64_range]).
  assert (Hsome : is_Some (s_counts s' !! ent_Message ent))
    by (simpl; rewrite lookup_insert_eq; eauto).
  assert (Hcounts : ∀ k, count_of s' k =
            if decide (ent_Message ent = k) then n else count_of s k)
    by (intros k; apply count_of_with_counts).
  assert (Hpol : same_policy s s') by (repeat split).
  revert HC.
  destruct (forwards (s_first s) (s_thereafter s) n) eqn:Efw;
    destruct (n =? s_first s + 1) eqn:Earm; intros HC;
    (eexists _, s', _; split; [exact HC | ]);
    rewrite Hn, Efw, Earm;
    (split; [exact Hok' | ]); (split; [exact Hpol | ]);
    (split; [exact Hcounts | ]); (split; [exact Hsome | ]);
    (split; [reflexivity | ]);
    (split; [simpl; rewrite ?app_nil_r; reflexivity | ]);
    split; reflexivity.
Qed.


Lemma Sample_ok (fac : Facility Level CheckedEntry) (tick first thereafter : Z) :
  0 <= first < 2 ^ 63 → 1 <= thereafter < 2 ^ 63 →
  ∃ s, Sample fac tick first thereafter = Ok s ∧
       s_Facility s = fac ∧ s_tick s = tick ∧
       s_first s = first ∧ s_thereafter s = thereafter ∧
       s_counts s = newCounters ∧ sampler_ok s.
Proof.
  intros Hf Ht. eexists. split; [reflexivity | ]. simpl.
  assert (2 ^ 63 < 2 ^ 64) by reflexivity.
  rewrite !u64_small by (unfold is_u64; lia).
  do 5 (split; [reflexivity | ]).
  split; [unfold is_u64; simpl; lia | split; [simpl; lia | ]].
  intros key count. simpl. unfold newCounters. rewrite lookup_empty.
  discriminate.
Qed.

Lemma Check_pattern_forwards (k : nat) :
  ∀ s ent ce w,
    Enabled (s_Facility s) (ent_Level ent) = true →
    sampler_ok s →
    count_of s (ent_Message ent) + Z.of_nat k < 2 ^ 64 →
    Check_pattern k s ent ce w =
    Ok (map (fun i => forwards (s_first s) (s_thereafter s)
                        (count_of s (ent_Message ent) + Z.of_nat i))
            (seq 1 k)).
Proof.
  induction k as [| k IH]; intros s ent ce w Hen Hok Hlen.
  - reflexivity.
  - destruct (Check_enabled_step s ent ce w Hen Hok)
      as (ce' & s1 & w1 & HC & Hok1 & Hpol & Hcnt & _ & _ & _ & Hfw).
    pose proof (count_of_u64 s (ent_Message ent) Hok) as Hr. unfold is_u64 in Hr.
    assert (Hc1 : count_of s1 (ent_Message ent) =
                  count_of s (ent_Message ent) + 1).
    { rewrite Hcnt, decide_True by reflexivity.
      apply u64_small. unfold is_u64. lia. }
    destruct Hpol as (HF & Htk & Hfi & Hth).
    cbn [Check_pattern]. rewrite HC. simpl.
    rewrite IH; [ | rewrite HF; exact Hen | exact Hok1 | lia ].
    simpl. f_equal. f_equal.
    + rewrite Hc1 in Hfw. unfold reached_wrapped.
      destruct (forwards _ _ _); destruct Hfw as [_ ->].
      * rewrite length_app. simpl. apply bool_decide_eq_true_2. lia.
      * apply bool_decide_eq_false_2. lia.
    + rewrite <- (seq_shift k 1), map_map. apply map_ext. intros i.
      rewrite Hfi, Hth, Hc1. f_equal. lia.
Qed.



(** *** Construction *)

(** C2 (as amended). [Sample] does not validate its arguments: with
    [thereafter = 0] it returns a sampler, whose cadence is [0], and does not
    fault. *)
Theorem Sample_accepts_thereafter_zero :
  ∀ (fac : Facility Level CheckedEntry) (tick first : Z),
    Sample fac tick first 0 =
    Ok {| s_Facility := fac; s_tick := tick; s_counts := newCounters;
          s_first := u64 first; s_thereafter := 0 |}.
Proof. intros fac tick first. reflexivity. Qed.

(** With a cadence of zero the first call past the burst allowance is the one
    that panics. *)
Lemma Check_thereafter_zero_panics s ent ce w :
  Enabled (s_Facility s) (ent_Level ent) = true →
  s_thereafter s = 0 →
  s_first s < u64 (count_of s (ent_Message ent) + 1) →
  Check s ent ce w = Panic DivideByZero.
Proof.
  intros Hen Ht Hlt. unfold Check. rewrite Hen. simpl negb. cbv iota.
  destruct (counters_Inc_count (ent_Message ent) (s_counts s)) as [Hn _].
  destruct (counters_Inc (ent_Message ent) (s_counts s)) as [n c].
  simpl in Hn. fold (count_of s (ent_Message ent)) in Hn. subst n.
  simpl s_first. simpl s_thereafter.
  destruct (Z.ltb_spec (s_first s) (u64 (count_of s (ent_Message ent) + 1)));
    [ | lia].
  rewrite Ht. reflexivity.
Qed.

(** C7 (as amended). Whatever its arguments, [Sample] builds a sampler on
    the exact counter, new and empty; no argument selects the sharded counter.
    Two keys that the sharded counter merges into one slot are counted apart
    by the sampler's counter. *)
Theorem Sample_always_uses_exact_counter :
  ∀ (fac : Facility Level CheckedEntry) (tick first thereafter : Z),
    ∃ s, Sample fac tick first thereafter = Ok s ∧
         sampler_counter s = ExactCounter newCounters ∧
         is_exact (sampler_counter s) = true ∧
         is_sharded (sampler_counter s) = false ∧
         hash Examples.key1 = hash Examples.key2 ∧
         run_counters [OpInc Examples.key1; OpInc Examples.key2] (s_counts s)
           = Ok [1; 1] ∧
         run_counters2 [OpInc Examples.key1; OpInc Examples.key2] newCounters2
           = Ok [1; 2].
Proof.
  intros fac tick first thereafter. eexists. split; [reflexivity | ].
  do 3 (split; [reflexivity | ]).
  split; [vm_compute; reflexivity | ].
  split; vm_compute; reflexivity.
Qed.

(** C10. [Sample] converts [first] and [thereafter] to [uint64] without a
    range check, so a negative argument wraps modulo 2^64: [thereafter = -1]
    gives the cadence 2^64 - 1, and [first = -1] gives the burst allowance
    2^64 - 1, under which every enabled call is forwarded. *)
Theorem Sample_wraps_negative_arguments :
  (∀ (fac : Facility Level CheckedEntry) (tick first thereafter : Z),
     Sample fac tick first thereafter =
     Ok {| s_Facility := fac; s_tick := tick; s_counts := newCounters;
           s_first := first mod 2 ^ 64;
           s_thereafter := thereafter mod 2 ^ 64 |}) ∧
  (∀ (fac : Facility Level CheckedEntry) (tick first : Z),
     ∃ s, Sample fac tick first (-1) = Ok s ∧ s_thereafter s = 2 ^ 64 - 1) ∧
  (∀ (fac : Facility Level CheckedEntry) (tick thereafter : Z),
     ∃ s, Sample fac tick (-1) thereafter = Ok s ∧
          s_first s = 2 ^ 64 - 1 ∧
          ∀ ent ce w (k : nat),
            Enabled fac (ent_Level ent) = true →
            Check_pattern k s ent ce w = Ok (replicate k true)).
Proof.
  split; [ | split].
  - intros. reflexivity.
  - intros fac tick first. eexists. split; reflexivity.
  - intros fac tick thereafter. eexists. split; [reflexivity | ].
    split; [reflexivity | ].
    intros ent ce w k Hen.
    set (s0 := {| s_Facility := fac; s_tick := tick; s_counts := newCounters;
                  s_first := u64 (-1); s_thereafter := u64 thereafter |}).
    assert (HF : s_Facility s0 = fac) by reflexivity.
    assert (Hf : s_first s0 = 2 ^ 64 - 1) by reflexivity.
    clearbody s0. revert s0 w HF Hf.
    induction k as [| k IH]; intros s w HF Hf; [reflexivity | ].
    cbn [Check_pattern]. unfold Check at 1. rewrite HF, Hen. simpl negb. cbv iota.
    pose proof (counters_Inc_u64 (ent_Message ent) (s_counts s)) as Hn.
    destruct (counters_Inc (ent_Message ent) (s_counts s)) as [n c].
    simpl in Hn. unfold is_u64 in Hn. simpl s_first. rewrite Hf.
    destruct (Z.ltb_spec (2 ^ 64 - 1) n); [lia | ].
    simpl. rewrite IH by (simpl; auto). simpl.
    f_equal. f_equal. unfold reached_wrapped. simpl. rewrite length_app. simpl.
    apply bool_decide_eq_true_2. lia.
Qed.

(** *** The reset timer *)

(** One [Check] call, enabled or not, seen from the timers. *)
Lemma Check_timer_step s ent ce w :
  sampler_ok s →
  ∃ ce' s' w',
    Check s ent ce w = Ok (ce', s', w') ∧
    sampler_ok s' ∧ same_policy s s' ∧
    (∀ k, count_of s' k =
          if Enabled (s_Facility s) (ent_Level ent) then
            if decide (ent_Message ent = k)
            then u64 (count_of s (ent_Message ent) + 1) else count_of s k
          else count_of s k) ∧
    (∀ k, is_Some (s_counts s !! k) → is_Some (s_counts s' !! k)) ∧
    (Enabled (s_Facility s) (ent_Level ent) = true →
     is_Some (s_counts s' !! ent_Message ent)) ∧
    now w' = now w ∧
    timers w' =
      timers w ++
      (if Enabled (s_Facility s) (ent_Level ent) &&
          (count_of s' (ent_Message ent) =? s_first s + 1)
       then [{| t_deadline := now w + s_tick s; t_key := ent_Message ent |}]
       else []).
Proof.
  intros Hok. destruct (Enabled (s_Facility s) (ent_Level ent)) eqn:Hen.
  - destruct (Check_enabled_step s ent ce w Hen Hok)
      as (ce' & s' & w' & HC & Hok' & Hpol & Hcnt & Hsome & Hnow & Htm & _).
    exists ce', s', w'. split; [exact HC | ].
    split; [exact Hok' | split; [exact Hpol | split; [exact Hcnt | ]]].
    split; [ | split; [auto | split; [exact Hnow | exact Htm]]].
    intros k [v Hv].
    assert (Hs' : s_counts s' = snd (counters_Inc (ent_Message ent) (s_counts s))).
    { pose proof (Check_enabled s ent ce w Hen) as HE.
      destruct Hok as (Hf & Ht & _). specialize (HE Hf Ht). cbv zeta in HE.
      rewrite HC in HE.
      destruct (counters_Inc_count (ent_Message ent) (s_counts s)) as [_ ->].
      destruct (forwards _ _ _); injection HE as _ -> _; reflexivity. }
    rewrite Hs'.
    destruct (counters_Inc_count (ent_Message ent) (s_counts s)) as [_ ->].
    destruct (decide (ent_Message ent = k)) as [-> | Hne].
    + rewrite lookup_insert_eq. eauto.
    + rewrite lookup_insert_ne by exact Hne. eauto.
  - pose proof (Check_disabled s ent ce w Hen) as HC.
    exists ce, s, w. split; [exact HC | ].
    split; [exact Hok | split; [repeat split | ]].
    split; [reflexivity | split; [auto | split; [discriminate | ]]].
    split; [reflexivity | ]. simpl. rewrite app_nil_r. reflexivity.
Qed.

(** A pending timer whose key is in the map: it cannot fire before its
    deadline; from the deadline on it fires, stores zero for its key and
    leaves the list of pending timers. *)
Lemma fire_resets s w (i : nat) (t : timer) :
  timers w !! i = Some t →
  is_Some (s_counts s !! t_key t) →
  (now w < t_deadline t → fire i s w = None) ∧
  (t_deadline t <= now w →
   fire i s w =
   Some (Ok (with_counts s (<[t_key t := 0]> (s_counts s)),
             {| now := now w; timers := delete i (timers w);
                forwarded := forwarded w |}))).
Proof.
  intros Ht Hkey. unfold fire. rewrite Ht. simpl.
  split; intros Hd.
  - destruct (Z.leb_spec (t_deadline t) (now w)); [lia | reflexivity].
  - destruct (Z.leb_spec (t_deadline t) (now w)); [ | lia].
    rewrite (counters_Reset_seen _ _ Hkey). reflexivity.
Qed.

Lemma timers_for_app (key : string) (ts1 ts2 : list timer) :
  timers_for key (ts1 ++ ts2) = timers_for key ts1 ++ timers_for key ts2.
Proof. unfold timers_for. apply filter_app. Qed.

Lemma counted_for_cons (fac : Facility Level CheckedEntry) (key : string)
    ent (ents : list (Entry Level)) :
  counted_for fac key (ent :: ents) =
  (if bool_decide (ent_Message ent = key) && Enabled fac (ent_Level ent)
   then 1 else 0) + counted_for fac key ents.
Proof.
  unfold counted_for. cbn [List.filter].
  destruct (bool_decide (ent_Message ent = key) && Enabled fac (ent_Level ent));
    cbn [length]; lia.
Qed.

Lemma counted_for_nonneg (fac : Facility Level CheckedEntry) (key : string)
    (ents : list (Entry Level)) : 0 <= counted_for fac key ents.
Proof. unfold counted_for. lia. Qed.

(** Over a run of calls in which the counter of [key] does not wrap, the
    count of [key] goes up by the number of enabled calls for it, and a timer
    is armed for [key] exactly when the count crosses [first] during the run:
    one timer then, with the deadline [tick] after the call, and none
    otherwise. *)
Lemma run_Checks_arms_on_crossing (key : string) (ents : list (Entry Level)) :
  ∀ s ce w,
    sampler_ok s →
    count_of s key + counted_for (s_Facility s) key ents < 2 ^ 64 →
    ∃ s' w' armed,
      run_Checks ents ce s w = Ok (s', w') ∧
      same_policy s s' ∧
      count_of s' key = count_of s key + counted_for (s_Facility s) key ents ∧
      now w' = now w ∧
      timers w' = timers w ++ armed ∧
      timers_for key armed =
        if (count_of s key <=? s_first s) &&
           (s_first s <? count_of s key + counted_for (s_Facility s) key ents)
        then [{| t_deadline := now w + s_tick s; t_key := key |}]
        else [].
Proof.
  induction ents as [| ent ents IH]; intros s ce w Hok Hlen.
  - exists s, w, []. rewrite app_nil_r.
    change (counted_for (s_Facility s) key []) with 0.
    split; [reflexivity | split; [repeat split | split; [lia | ]]].
    split; [reflexivity | split; [reflexivity | ]].
    destruct (Z.leb_spec (count_of s key) (s_first s));
      destruct (Z.ltb_spec (s_first s) (count_of s key + 0));
      simpl; try reflexivity; lia.
  - destruct (Check_timer_step s ent ce w Hok)
      as (ce1 & s1 & w1 & HC & Hok1 & (HF & Htk & Hfi & Hth) & Hcnt & _ & _
          & Hnow & Htm).
    pose proof (count_of_u64 s key Hok) as Hr. unfold is_u64 in Hr.
    pose proof (counted_for_nonneg (s_Facility s) key ents) as Hm.
    rewrite counted_for_cons in *.
    set (m := counted_for (s_Facility s) key ents) in *.
    set (t := {| t_deadline := now w + s_tick s; t_key := key |}).
    set (new1 := if Enabled (s_Facility s) (ent_Level ent) &&
                    (count_of s1 (ent_Message ent) =? s_first s + 1)
                 then [{| t_deadline := now w + s_tick s;
                          t_key := ent_Message ent |}]
                 else []) in *.
    destruct Hok as (Hf & _). unfold is_u64 in Hf.
    assert (Hstep :
      count_of s1 key =
        count_of s key +
        (if bool_decide (ent_Message ent = key) &&
            Enabled (s_Facility s) (ent_Level ent) then 1 else 0) ∧
      timers_for key new1 =
        if bool_decide (ent_Message ent = key) &&
           Enabled (s_Facility s) (ent_Level ent) &&
           (count_of s key =? s_first s)
        then [t] else []).
    { unfold new1. pose proof (Hcnt key) as Hk.
      pose proof (Hcnt (ent_Message ent)) as Hmsg.
      destruct (Enabled (s_Facility s) (ent_Level ent)); simpl.
      - destruct (decide (ent_Message ent = key)) as [Heq | Hne].
        + rewrite (bool_decide_eq_true_2 _ Heq) in *. simpl in *.
          rewrite Heq in *.
          rewrite u64_small in Hk by (unfold is_u64; lia).
          split; [exact Hk | ]. rewrite Hk.
          destruct (Z.eqb_spec (count_of s key + 1) (s_first s + 1));
            destruct (Z.eqb_spec (count_of s key) (s_first s)); try lia.
          * unfold timers_for. rewrite filter_cons. simpl.
            rewrite decide_True by reflexivity. reflexivity.
          * reflexivity.
        + rewrite (bool_decide_eq_false_2 _ Hne) in *. simpl in *.
          split; [lia | ].
          destruct (_ =? _); [ | reflexivity].
          unfold timers_for. rewrite filter_cons. simpl.
          rewrite decide_False by exact Hne. reflexivity.
      - rewrite andb_false_r. simpl. split; [lia | reflexivity]. }
    destruct Hstep as [Hc1 Hnew].
    set (hit := bool_decide (ent_Message ent = key) &&
                Enabled (s_Facility s) (ent_Level ent)) in *.
    destruct (IH s1 ce w1 Hok1)
      as (s' & w' & armed & Hrun & (HF' & Htk' & Hfi' & Hth') & Hcnt' & Hnow'
          & Htm' & Harmed).
    { rewrite HF, Hc1. fold m. lia. }
    rewrite HF in Hcnt', Harmed. fold m in Hcnt', Harmed.
    rewrite Hnow, Htk, Hfi, Hc1 in Harmed. fold t in Harmed.
    exists s', w', (new1 ++ armed).
    split; [cbn [run_Checks]; rewrite HC; simpl; exact Hrun | ].
    split; [repeat split; congruence | ].
    split; [rewrite Hcnt', Hc1; lia | ].
    split; [congruence | ].
    split; [rewrite Htm', Htm, app_assoc; reflexivity | ].
    rewrite timers_for_app, Hnew, Harmed.
    destruct hit; simpl;
      destruct (Z.eqb_spec (count_of s key) (s_first s));
      repeat match goal with
             | |- context [Z.leb ?a ?b] => destruct (Z.leb_spec a b)
             | |- context [Z.ltb ?a ?b] => destruct (Z.ltb_spec a b)
             end; simpl; try reflexivity; lia.
Qed.

(** C8. An enabled [Check] call brings the count of its message up by one,
    and it arms a reset timer exactly when that brings the count to
    [first + 1]; the timer it arms can fire only once [tick] has elapsed, and
    when it fires it sets the count of that message to zero; over any run of
    calls without a reset (and without the 64-bit counter wrapping) one timer
    is armed for a key when its count crosses [first] during the run, and
    none otherwise, so a key already past [first] arms no further timer. *)
Theorem Check_arms_one_reset_timer_per_crossing :
  (∀ s ent ce w,
     sampler_ok s →
     ∃ ce' s' w',
       Check s ent ce w = Ok (ce', s', w') ∧
       now w' = now w ∧
       (∀ k, count_of s' k =
             if Enabled (s_Facility s) (ent_Level ent) then
               if decide (ent_Message ent = k)
               then u64 (count_of s (ent_Message ent) + 1) else count_of s k
             else count_of s k) ∧
       (Enabled (s_Facility s) (ent_Level ent) = true →
        is_Some (s_counts s' !! ent_Message ent)) ∧
       (∀ k, is_Some (s_counts s !! k) → is_Some (s_counts s' !! k)) ∧
       timers w' =
         timers w ++
         (if Enabled (s_Facility s) (ent_Level ent) &&
             (count_of s' (ent_Message ent) =? s_first s + 1)
          then [{| t_deadline := now w + s_tick s; t_key := ent_Message ent |}]
          else [])) ∧
  (∀ s w (i : nat) (t : timer) (d : Z),
     timers w !! i = Some t →
     is_Some (s_counts s !! t_key t) →
     (now w + d < t_deadline t → fire i s (advance d w) = None) ∧
     (t_deadline t <= now w + d →
      ∃ s' w', fire i s (advance d w) = Some (Ok (s', w')) ∧
               count_of s' (t_key t) = 0 ∧
               (∀ k, k ≠ t_key t → count_of s' k = count_of s k) ∧
               timers w' = delete i (timers w))) ∧
  (∀ (key : string) (ents : list (Entry Level)) s ce w,
     sampler_ok s →
     count_of s key + counted_for (s_Facility s) key ents < 2 ^ 64 →
     ∃ s' w' armed,
       run_Checks ents ce s w = Ok (s', w') ∧
       count_of s' key = count_of s key + counted_for (s_Facility s) key ents ∧
       timers w' = timers w ++ armed ∧
       timers_for key armed =
         if (count_of s key <=? s_first s) &&
            (s_first s <? count_of s key + counted_for (s_Facility s) key ents)
         then [{| t_deadline := now w + s_tick s; t_key := key |}]
         else []).
Proof.
  split; [ | split].
  - intros s ent ce w Hok.
    destruct (Check_timer_step s ent ce w Hok)
      as (ce' & s' & w' & HC & _ & _ & Hcnt & Hkeep & Hsome & Hnow & Htm).
    exists ce', s', w'. auto 10.
  - intros s w i t d Ht Hkey.
    destruct (fire_resets s (advance d w) i t Ht Hkey) as [Hearly Hdue].
    split; [exact Hearly | ].
    intros Hd. eexists _, _. split; [apply Hdue; exact Hd | ].
    split; [ | split; [ | reflexivity]].
    + rewrite count_of_with_counts, decide_True; reflexivity.
    + intros k Hk. rewrite count_of_with_counts, decide_False; auto.
  - intros key ents s ce w Hok Hlen.
    destruct (run_Checks_arms_on_crossing key ents s ce w Hok Hlen)
      as (s' & w' & armed & Hrun & _ & Hcnt & _ & Htm & Harmed).
    exists s', w', armed. auto.
Qed.

End SamplerFacts.

(** ** Concrete runs *)

Lemma sampler_1_3_ok : sampler_ok Examples.sampler_1_3.
Proof.
  split; [unfold is_u64; simpl; lia | split; [discriminate | ]].
  intros key count. simpl. unfold newCounters. rewrite lookup_empty.
  discriminate.
Qed.


(** C2, the claim as stated fails: [Sample] with [thereafter = 0] does not
    fault. *)
Lemma Sample_thereafter_zero_does_not_fault :
  ¬ ∃ p : panic, Sample Examples.facility 1000 1 0 = Panic p.
Proof. intros [p H]. discriminate H. Qed.

(** The fault shows at the second call, the first one past the burst
    allowance of one. *)
Example Check_thereafter_zero_second_call :
  (s ← Sample Examples.facility 1000 1 0;
   Check_pattern 2 s Examples.foo [] Examples.start) = Panic DivideByZero.
Proof. vm_compute. reflexivity. Qed.

(** Where the exact counter returns no counts: a [Reset] of a key that was
    not incremented before is served by the sharded counter, whose next [Inc]
    returns 1, and panics on the exact counter. *)
Example counters_panics_where_counters2_counts :
  collision_free [OpReset "a"; OpInc "a"] = true ∧
  run_counters2 [OpReset "a"; OpInc "a"] newCounters2 = Ok [1] ∧
  run_counters [OpReset "a"; OpInc "a"] newCounters = Panic NilDereference.
Proof. repeat split; vm_compute; reflexivity. Qed.

Lemma counters2_Inc_refines_counters_witness :
  let ops := [OpInc Examples.msg1; OpInc Examples.msg2; OpInc Examples.msg1;
              OpReset Examples.msg1; OpInc Examples.msg1; OpInc Examples.msg2] in
  collision_free ops = true ∧
  run_counters ops newCounters = Ok [1; 1; 2; 1; 2] ∧
  run_counters2 ops newCounters2 = Ok [1; 1; 2; 1; 2].
Proof.
  intros ops.
  assert (Hcf : collision_free ops = true) by (vm_compute; reflexivity).
  assert (Hrun : run_counters ops newCounters = Ok [1; 1; 2; 1; 2])
    by (vm_compute; reflexivity).
  split; [exact Hcf | split; [exact Hrun | ]].
  exact (proj2 (proj2 (proj2 counters2_Inc_refines_counters))
           ops [1; 1; 2; 1; 2] Hcf Hrun).
Defined.

(** C7, the claim as stated fails: no argument of [Sample] gives a sampler on
    the sharded counter. *)
Lemma Sample_never_uses_sharded_counter :
  ¬ ∃ (fac : Facility bool (list string)) (tick first thereafter : Z)
      (s : sampler bool (list string)),
      Sample fac tick first thereafter = Ok s ∧
      is_sharded (sampler_counter s) = true.
Proof. intros (fac & tick & first & thereafter & s & _ & H). discriminate H. Qed.

(** Under [first = 1]: the call that brings the count of ["foo"] from 1 to 2
    arms the timer, and four calls on a new sampler arm exactly one. *)
Lemma Check_arms_one_reset_timer_per_crossing_witness :
  (∃ ce' s' w',
     Check MoreExamples.sampler_after_one Examples.foo [] Examples.start
       = Ok (ce', s', w') ∧
     count_of s' "foo" = 2 ∧
     timers w' = [{| t_deadline := 1000; t_key := "foo" |}]) ∧
  (∃ s' w' armed,
     run_Checks [Examples.foo; Examples.foo; Examples.foo; Examples.foo] []
       Examples.sampler_1_3 Examples.start = Ok (s', w') ∧
     count_of s' "foo" = 4 ∧
     timers w' = timers Examples.start ++ armed ∧
     timers_for "foo" armed = [{| t_deadline := 1000; t_key := "foo" |}]).
Proof.
  assert (Hok1 : sampler_ok MoreExamples.sampler_after_one).
  { split; [unfold is_u64; simpl; lia | split; [discriminate | ]].
    intros key count H. simpl in H.
    apply lookup_singleton_Some in H as [_ <-]. unfold is_u64. lia. }
  split.
  - destruct (proj1 (@Check_arms_one_reset_timer_per_crossing bool (list string))
                MoreExamples.sampler_after_one Examples.foo [] Examples.start
                Hok1)
      as (ce' & s' & w' & HC & _ & Hcnt & _ & _ & Htm).
    exists ce', s', w'. split; [exact HC | ].
    assert (Hc : count_of s' "foo" = 2) by (rewrite (Hcnt "foo"); reflexivity).
    split; [exact Hc | ].
    rewrite Htm. simpl ent_Message. rewrite Hc. reflexivity.
  - destruct (proj2 (proj2 (@Check_arms_one_reset_timer_per_crossing
                              bool (list string)))
                "foo" [Examples.foo; Examples.foo; Examples.foo; Examples.foo]
                Examples.sampler_1_3 [] Examples.start sampler_1_3_ok)
      as (s' & w' & armed & Hrun & Hcnt & Htm & Harmed).
    + vm_compute. reflexivity.
    + exists s', w', armed.
      split; [exact Hrun | split; [exact Hcnt | split; [exact Htm | ]]].
      exact Harmed.
Defined.

Example Check_arms_timer_on_second_call :
  ('(s, w) ← run_Checks [Examples.foo; Examples.foo; Examples.foo] []
               Examples.sampler_1_3 Examples.start;
   mret (timers w, count_of s "foo")) =
  Ok ([{| t_deadline := 1000; t_key := "foo" |}], 3).
Proof. vm_compute. reflexivity. Qed.

Lemma Check_disabled_changes_nothing_witness :
  Enabled (s_Facility Examples.sampler_1_3) (ent_Level Examples.foo_disabled)
    = false ∧
  Check Examples.sampler_1_3 Examples.foo_disabled [] Examples.start
    = Ok ([], Examples.sampler_1_3, Examples.start).
Proof.
  split; [reflexivity | ].
  exact (proj1 (Check_disabled_changes_nothing Examples.sampler_1_3
                  Examples.foo_disabled [] Examples.start eq_refl)).
Defined.

Lemma Sample_wraps_negative_arguments_witness :
  Enabled Examples.facility (ent_Level Examples.foo) = true ∧
  ∃ s, Sample Examples.facility 1000 (-1) 3 = Ok s ∧
       s_first s = 2 ^ 64 - 1 ∧
       Check_pattern 3 s Examples.foo [] Examples.start
         = Ok [true; true; true].
Proof.
  split; [reflexivity | ].
  destruct (proj2 (proj2 (@Sample_wraps_negative_arguments bool (list string)))
              Examples.facility 1000 3) as (s & HS & Hf & Hall).
  exists s. split; [exact HS | split; [exact Hf | ]].
  exact (Hall Examples.foo [] Examples.start 3%nat eq_refl).
Defined.

(** * Further properties of the code *)

(** ** The fold and the permutation *)

Lemma big_endian_from_split (s : string) (n : Z) :
  big_endian_from n s =
  n * 256 ^ Z.of_nat (String.length s) + big_endian s.
Proof.
  unfold big_endian. revert n. induction s as [| c s IH]; intros n.
  - simpl. lia.
  - cbn [big_endian_from String.length].
    rewrite (IH (n * 256 + byte_of c)), (IH (0 * 256 + byte_of c)).
    rewrite Nat2Z.inj_succ, Z.pow_succ_r by lia. ring.
Qed.

Lemma big_endian_bound (s : string) :
  0 <= big_endian s < 256 ^ Z.of_nat (String.length s).
Proof.
  induction s as [| c s IH].
  - simpl. unfold big_endian. simpl. lia.
  - unfold big_endian. cbn [big_endian_from String.length].
    rewrite big_endian_from_split.
    rewrite Nat2Z.inj_succ, Z.pow_succ_r by lia.
    pose proof (byte_of_range c).
    assert (0 < 256 ^ Z.of_nat (String.length s)) by (apply Z.pow_pos_nonneg; lia).
    nia.
Qed.

(** One iteration of the loop appends a byte to the number and cuts it to
    64 bits. *)
Lemma xorstring_step_append (n : Z) (c : ascii) :
  xorstring_step n c = u64 (n * 256 + byte_of c).
Proof.
  rewrite xorstring_step_shift.
  pose proof (byte_of_range c) as Hb.
  assert (Hland : Z.land (u64 (Z.shiftl n 8)) (byte_of c) = 0).
  { apply Z.bits_inj'. intros i Hi. rewrite Z.land_spec, Z.bits_0.
    destruct (Z.lt_ge_cases i 8) as [Hlt | Hge].
    - unfold u64. rewrite Z.testbit_mod_pow2 by lia.
      rewrite Z.shiftl_spec_low by exact Hlt.
      rewrite andb_false_r. reflexivity.
    - rewrite <- (Z.mod_small (byte_of c) (2 ^ 8)) by (change (2 ^ 8) with 256; lia).
      rewrite (Z.mod_pow2_bits_high (byte_of c) 8 i) by lia.
      apply andb_false_r. }
  rewrite <- (Z.add_nocarry_lxor _ _ Hland).
  unfold u64. rewrite Z.shiftl_mul_pow2 by lia. change (2 ^ 8) with 256.
  change (2 ^ 64) with (2 ^ 56 * 256).
  rewrite Z.mul_mod_distr_r by lia.
  pose proof (Z.mod_pos_bound n (2 ^ 56)) as Hr.
  apply Z.mod_unique with (q := n / 2 ^ 56); [left; lia | ].
  rewrite (Z.div_mod n (2 ^ 56)) at 1 by lia. ring.
Qed.

Lemma xorstring_from_big_endian (s : string) (n : Z) :
  is_u64 n → xorstring_from n s = u64 (big_endian_from n s).
Proof.
  revert n. induction s as [| c s IH]; intros n Hn.
  - simpl. symmetry. apply u64_small, Hn.
  - cbn [xorstring_from big_endian_from].
    rewrite IH by apply xorstring_step_u64.
    rewrite xorstring_step_append.
    rewrite (big_endian_from_split s (u64 _)), (big_endian_from_split s (_ + _)).
    unfold u64. rewrite Zplus_mod, Zmult_mod_idemp_l, <- Zplus_mod.
    reflexivity.
Qed.

Lemma xorstring_big_endian_mod (s : string) :
  xorstring s = big_endian s mod 2 ^ 64.
Proof.
  unfold xorstring, big_endian.
  apply (xorstring_from_big_endian s 0). unfold is_u64. lia.
Qed.

Lemma xorstring_short (s : string) :
  (String.length s <= 8)%nat → xorstring s = big_endian s.
Proof.
  intros Hlen. rewrite xorstring_big_endian_mod. apply Z.mod_small.
  pose proof (big_endian_bound s) as Hb.
  assert (256 ^ Z.of_nat (String.length s) <= 256 ^ 8)
    by (apply Z.pow_le_mono_r; lia).
  change (256 ^ 8) with (2 ^ 64) in *. lia.
Qed.

(** X1. [xorstring] reads the key as a big-endian number and keeps its low
    64 bits; for a key of at most eight bytes the state is that number. *)
Theorem xorstring_is_big_endian :
  ∀ s : string,
    xorstring s = big_endian s mod 2 ^ 64 ∧
    ((String.length s <= 8)%nat → xorstring s = big_endian s).
Proof.
  intros s. split; [apply xorstring_big_endian_mod | apply xorstring_short].
Qed.

Lemma xorstring_is_big_endian_witness :
  (String.length "foo" <= 8)%nat ∧ xorstring "foo" = big_endian "foo".
Proof.
  split; [simpl; lia | ].
  apply (proj2 (xorstring_is_big_endian "foo")). simpl. lia.
Defined.

(** X2. Two keys that end in the same eight bytes or more have the same
    slot, whatever comes before. *)
Theorem hash_same_suffix_collides :
  ∀ p q s : string,
    (8 <= String.length s)%nat →
    hash (String.append p s) = hash (String.append q s).
Proof.
  intros p q s Hlen. unfold hash.
  rewrite !xorstring_forgets_prefix by exact Hlen. reflexivity.
Qed.

Lemma hash_same_suffix_collides_witness :
  (8 <= String.length " timeout")%nat ∧
  hash (String.append "read" " timeout") =
  hash (String.append "write" " timeout").
Proof.
  split; [simpl; lia | ].
  apply (hash_same_suffix_collides "read" "write" " timeout"). simpl. lia.
Defined.

Lemma lxor_below_pow2 (k a b : Z) :
  0 <= k → 0 <= a < 2 ^ k → 0 <= b < 2 ^ k → 0 <= Z.lxor a b < 2 ^ k.
Proof.
  intros Hk Ha Hb.
  assert (H : Z.lxor a b = Z.lxor a b mod 2 ^ k).
  { apply Z.bits_inj'. intros i Hi.
    rewrite Z.testbit_mod_pow2, Z.lxor_spec by exact Hk.
    destruct (Z.ltb_spec i k); [reflexivity | ].
    rewrite <- (Z.mod_small a (2 ^ k)), <- (Z.mod_small b (2 ^ k)) by lia.
    rewrite !Z.mod_pow2_bits_high by lia. reflexivity. }
  rewrite H. apply Z.mod_pos_bound. apply Z.pow_pos_nonneg; lia.
Qed.

Lemma xshrr_small (n : Z) : 0 <= n < 2 ^ 27 → xshrr n = 0.
Proof.
  intros Hn. unfold xshrr. cbv zeta.
  assert (Hs : 0 <= Z.shiftr n 18 < 2 ^ 27).
  { rewrite Z.shiftr_div_pow2 by lia. split.
    - apply Z.div_pos; lia.
    - apply Z.div_lt_upper_bound; lia. }
  pose proof (lxor_below_pow2 27 _ _ ltac:(lia) Hs Hn) as Hx.
  assert (Hz : Z.shiftr (Z.lxor (Z.shiftr n 18) n) 27 = 0).
  { rewrite Z.shiftr_div_pow2 by lia. apply Z.div_small. exact Hx. }
  rewrite Hz. change (u32 0) with 0.
  rewrite Z.shiftr_0_l, Z.shiftl_0_l. reflexivity.
Qed.

(** X3. Every key of at most three bytes has slot 0: the permutation maps
    every state below 2^27 to 0. *)
Theorem hash_short_key_is_zero :
  ∀ s : string, (String.length s <= 3)%nat → hash s = 0.
Proof.
  intros s Hlen. unfold hash.
  rewrite xorstring_short by lia.
  pose proof (big_endian_bound s) as Hb.
  assert (256 ^ Z.of_nat (String.length s) <= 256 ^ 3)
    by (apply Z.pow_le_mono_r; lia).
  rewrite xshrr_small; [reflexivity | ].
  change (256 ^ 3) with (2 ^ 24) in *.
  assert (2 ^ 24 < 2 ^ 27) by reflexivity. lia.
Qed.

Lemma hash_short_key_is_zero_witness :
  (String.length "EOF" <= 3)%nat ∧ hash "EOF" = 0.
Proof.
  split; [simpl; lia | ].
  apply (hash_short_key_is_zero "EOF"). simpl. lia.
Defined.

(** X4. [xshrr] returns a [uint32], the 32-bit word [xorshifted] rotated
    right by [rot] places: bit [i] of the result is bit [(i + rot) mod 32] of
    [xorshifted]. *)
Theorem xshrr_is_rotate_right :
  ∀ n : Z,
    is_u64 n →
    let xorshifted := u32 (Z.shiftr (Z.lxor (Z.shiftr n 18) n) 27) in
    let rot := Z.shiftr n 59 in
    is_u32 (xshrr n) ∧
    ∀ i : Z, 0 <= i < 32 →
      Z.testbit (xshrr n) i = Z.testbit xorshifted ((i + rot) mod 32).
Proof.
  intros n Hn xorshifted rot.
  split; [apply xshrr_u32, Hn | ].
  intros i Hi. pose proof (rot_range n Hn) as Hrot. fold rot in Hrot.
  unfold xshrr. cbv zeta. fold xorshifted.
  rewrite (u32_small (Z.shiftr n 59)) by (unfold is_u32; fold rot; lia).
  fold rot. rewrite neg_rot_mask.
  change 31 with (Z.ones 5). rewrite Z.land_ones by lia.
  rewrite Z.lor_spec, Z.shiftr_spec by lia.
  unfold u32 at 1. rewrite Z.testbit_mod_pow2 by lia.
  destruct (Z.ltb_spec i 32); [ | lia]. rewrite andb_true_l.
  rewrite Z.shiftl_spec by lia.
  assert (Hhigh : ∀ j, 32 <= j → Z.testbit xorshifted j = false).
  { intros j Hj. unfold xorshifted, u32. apply Z.mod_pow2_bits_high. lia. }
  destruct (Z.eq_dec rot 0) as [Hr0 | Hr0].
  - rewrite Hr0. change (- 0 mod 2 ^ 5) with 0.
    rewrite Z.add_0_r, Z.sub_0_r, orb_diag.
    rewrite Z.mod_small by lia. reflexivity.
  - assert (Hk : - rot mod 2 ^ 5 = 32 - rot).
    { symmetry. apply Z.mod_unique with (q := -1); [left | ];
        change (2 ^ 5) with 32; lia. }
    rewrite Hk.
    destruct (Z.lt_ge_cases (i + rot) 32) as [Hlt | Hge].
    + rewrite (Z.testbit_neg_r _ (i - (32 - rot))) by lia.
      rewrite orb_false_r, Z.mod_small by lia. reflexivity.
    + rewrite (Hhigh (i + rot)) by lia. rewrite orb_false_l.
      f_equal. apply Z.mod_unique with (q := 1); [left | ]; lia.
Qed.

Lemma xshrr_is_rotate_right_witness :
  is_u64 (xorstring "connection reset by peer") ∧
  is_u32 (xshrr (xorstring "connection reset by peer")).
Proof.
  assert (H : is_u64 (xorstring "connection reset by peer"))
    by (unfold is_u64; vm_compute; split; [discriminate | reflexivity]).
  split; [exact H | ].
  exact (proj1 (xshrr_is_rotate_right _ H)).
Defined.

(** ** The counters over sequences of operations *)

Lemma u64_succ (n : Z) : u64 (u64 n + 1) = u64 (n + 1).
Proof. unfold u64. apply Zplus_mod_idemp_l. Qed.

Lemma exec_counters_count (key : string) (ops : list op) :
  ∀ (c0 c : counters) (n0 : Z),
    default 0 (c0 !! key) = u64 n0 →
    exec_counters ops c0 = Ok c →
    default 0 (c !! key) = u64 (incs_since_reset (String.eqb key) n0 ops).
Proof.
  induction ops as [| o ops IH]; intros c0 c n0 H0 Hexec.
  - simpl in *. injection Hexec as <-. exact H0.
  - destruct o as [k | k]; cbn [exec_counters incs_since_reset] in *.
    + eapply IH; [ | exact Hexec].
      destruct (counters_Inc_count k c0) as [_ ->].
      destruct (String.eqb_spec key k) as [<- | Hne].
      * rewrite lookup_insert_eq. simpl. rewrite H0. apply u64_succ.
      * rewrite lookup_insert_ne by congruence. exact H0.
    + unfold counters_Reset in Hexec.
      destruct (c0 !! k) as [v | ] eqn:Hk; [ | discriminate Hexec].
      simpl in Hexec. eapply IH; [ | exact Hexec].
      destruct (String.eqb_spec key k) as [<- | Hne].
      * rewrite lookup_insert_eq. reflexivity.
      * rewrite lookup_insert_ne by congruence. exact H0.
Qed.

(** X5. The exact counter counts every key on its own: after a sequence of
    operations that completes, the count of a key is the number of its [Inc]s
    since its last [Reset], as a [uint64]; operations on other keys do not
    change it. *)
Theorem exec_counters_counts_since_reset :
  ∀ (ops : list op) (c : counters) (key : string),
    exec_counters ops newCounters = Ok c →
    default 0 (c !! key) = u64 (incs_since_reset (String.eqb key) 0 ops).
Proof.
  intros ops c key Hexec.
  apply (exec_counters_count key ops newCounters c 0); [ | exact Hexec].
  unfold newCounters. rewrite lookup_empty. reflexivity.
Qed.

Lemma exec_counters_counts_since_reset_witness :
  let ops := [OpInc "a"; OpInc "b"; OpInc "a"; OpReset "a"; OpInc "a";
              OpInc "a"; OpReset "b"] in
  ∃ c, exec_counters ops newCounters = Ok c ∧
       default 0 (c !! "a") = 2 ∧ default 0 (c !! "b") = 0.
Proof.
  intros ops.
  destruct (exec_counters ops newCounters) as [c | p] eqn:E;
    [ | vm_compute in E; discriminate E].
  exists c. split; [reflexivity | ].
  split.
  - exact (exec_counters_counts_since_reset ops c "a" E).
  - exact (exec_counters_counts_since_reset ops c "b" E).
Defined.

Lemma exec_counters_faults (ops : list op) :
  ∀ (seen : list string) (c : counters),
    (∀ k, k ∈ seen ↔ is_Some (c !! k)) →
    if resets_follow_incs seen ops
    then ∃ c', exec_counters ops c = Ok c'
    else exec_counters ops c = Panic NilDereference.
Proof.
  induction ops as [| o ops IH]; intros seen c Hseen.
  - simpl. eauto.
  - destruct o as [k | k]; cbn [exec_counters resets_follow_incs].
    + apply IH. intros k'.
      destruct (counters_Inc_count k c) as [_ ->].
      rewrite elem_of_cons, Hseen.
      destruct (decide (k = k')) as [<- | Hne].
      * rewrite lookup_insert_eq. split; eauto.
      * rewrite lookup_insert_ne by exact Hne. split; [ | auto].
        intros [? | ?]; [congruence | assumption].
    + unfold counters_Reset.
      destruct (c !! k) as [v | ] eqn:Hk.
      * rewrite bool_decide_eq_true_2 by (apply Hseen; rewrite Hk; eauto).
        simpl. apply IH. intros k'. rewrite Hseen.
        destruct (decide (k = k')) as [<- | Hne].
        -- rewrite lookup_insert_eq, Hk. split; eauto.
        -- rewrite lookup_insert_ne by exact Hne. reflexivity.
      * rewrite bool_decide_eq_false_2; [reflexivity | ].
        intros Hin. apply Hseen in Hin. rewrite Hk in Hin.
        destruct Hin as [? [=]].
Qed.

(** X6. A sequence of operations on a new exact counter completes exactly
    when every [Reset] in it comes after an [Inc] of the same key; otherwise
    it stops with a nil pointer dereference, and with no other fault. *)
Theorem exec_counters_completes_iff :
  ∀ ops : list op,
    (resets_follow_incs [] ops = true ↔
     ∃ c, exec_counters ops newCounters = Ok c) ∧
    (resets_follow_incs [] ops = false ↔
     exec_counters ops newCounters = Panic NilDereference).
Proof.
  intros ops.
  pose proof (exec_counters_faults ops [] newCounters) as H.
  assert (Hseen : ∀ k : string, k ∈ [] ↔ is_Some (newCounters !! k)).
  { intros k. unfold newCounters. rewrite lookup_empty. split.
    - intros Hin. apply elem_of_nil in Hin. destruct Hin.
    - intros [? [=]]. }
  specialize (H Hseen).
  destruct (resets_follow_incs [] ops).
  - destruct H as [c Hc]. rewrite Hc. split; split; eauto; discriminate.
  - rewrite H. split; split; auto; try discriminate.
    intros [c [=]].
Qed.

Lemma exec_counters_completes_iff_witness :
  resets_follow_incs [] [OpInc "a"; OpReset "b"] = false ∧
  exec_counters [OpInc "a"; OpReset "b"] newCounters = Panic NilDereference.
Proof.
  split; [reflexivity | ].
  apply (proj1 (proj2 (exec_counters_completes_iff [OpInc "a"; OpReset "b"]))).
  reflexivity.
Defined.

(** *** The sharded counter *)

Lemma counters2_Inc_buckets (key : string) (c : counters2) :
  counters2_shape c →
  ∃ n c', counters2_Inc key c = Ok (n, c') ∧
          ∀ j : nat, j ≠ Z.to_nat (hash key / _counters2PerLock) →
                     c' !! j = c !! j.
Proof.
  intros Hshape. pose proof (hash_range key) as Hi.
  destruct (slot_of_shape c (hash key) Hshape Hi) as (b & n & Hcb & Hn & _).
  unfold counters2_Inc, bucket2_inc. cbv zeta. rewrite Hcb, Hn.
  eexists _, _. split; [reflexivity | ].
  intros j Hj. apply list_lookup_insert_ne. congruence.
Qed.

Lemma counters2_Reset_buckets (key : string) (c : counters2) :
  counters2_shape c →
  ∃ c', counters2_Reset key c = Ok c' ∧
        ∀ j : nat, j ≠ Z.to_nat (hash key / _counters2PerLock) →
                   c' !! j = c !! j.
Proof.
  intros Hshape. pose proof (hash_range key) as Hi.
  destruct (slot_of_shape c (hash key) Hshape Hi) as (b & n & Hcb & Hn & _).
  unfold counters2_Reset, bucket2_reset. cbv zeta. rewrite Hcb, Hn.
  eexists. split; [reflexivity | ].
  intros j Hj. apply list_lookup_insert_ne. congruence.
Qed.

Lemma exec_counters2_Inc_step (k : string) (ops : list op)
    (c c1 : counters2) (n : Z) :
  counters2_Inc k c = Ok (n, c1) →
  exec_counters2 (OpInc k :: ops) c = exec_counters2 ops c1.
Proof. intros H. cbn [exec_counters2]. rewrite H. reflexivity. Qed.

Lemma exec_counters2_Reset_step (k : string) (ops : list op)
    (c c1 : counters2) :
  counters2_Reset k c = Ok c1 →
  exec_counters2 (OpReset k :: ops) c = exec_counters2 ops c1.
Proof. intros H. cbn [exec_counters2]. rewrite H. reflexivity. Qed.

Lemma exec_counters2_slot (i : Z) (ops : list op) :
  0 <= i < _counters2Width →
  ∀ (c : counters2) (n0 : Z),
    counters2_shape c → slot_of c i = Some (u64 n0) →
    ∃ c', exec_counters2 ops c = Ok c' ∧ counters2_shape c' ∧
          slot_of c' i =
          Some (u64 (incs_since_reset (fun k => hash k =? i) n0 ops)).
Proof.
  intros Hi.
  induction ops as [| o ops IH]; intros c n0 Hshape Hslot.
  - exists c. split; [reflexivity | split; assumption].
  - destruct o as [k | k]; cbn [incs_since_reset].
    + destruct (counters2_Inc_slot k c Hshape)
        as (n & c1 & Hn & Hinc & Hshape1 & Hnew & Hother).
      rewrite (exec_counters2_Inc_step k ops c c1 _ Hinc).
      apply IH; [exact Hshape1 | ].
      destruct (Z.eqb_spec (hash k) i) as [Heq | Hne].
      * subst i. rewrite Hslot in Hn. injection Hn as <-.
        rewrite Hnew, u64_succ. reflexivity.
      * rewrite Hother by auto. exact Hslot.
    + destruct (counters2_Reset_slot k c Hshape)
        as (c1 & Hreset & Hshape1 & Hnew & Hother).
      rewrite (exec_counters2_Reset_step k ops c c1 Hreset).
      apply IH; [exact Hshape1 | ].
      destruct (Z.eqb_spec (hash k) i) as [Heq | Hne].
      * subst i. rewrite Hnew. reflexivity.
      * rewrite Hother by auto. exact Hslot.
Qed.

(** X7. The sharded counter never faults, and each of its slots counts for
    all the keys that hash to it: after any sequence of operations on a new
    table, the slot of a key holds the number of [Inc]s of the keys with that
    hash since the last [Reset] of any of them, as a [uint64]. *)
Theorem exec_counters2_counts_per_slot :
  ∀ (ops : list op) (key : string),
    ∃ c, exec_counters2 ops newCounters2 = Ok c ∧
         counters2_shape c ∧
         slot_of c (hash key) =
         Some (u64 (incs_since_reset (fun k => hash k =? hash key) 0 ops)).
Proof.
  intros ops key.
  apply (exec_counters2_slot (hash key) ops (hash_range key) newCounters2 0).
  - apply newCounters2_shape.
  - apply newCounters2_slot, hash_range.
Qed.

Lemma hash_bucket_below_locks (k : string) :
  (Z.to_nat (hash k / _counters2PerLock) < Z.to_nat _counters2Locks)%nat.
Proof.
  pose proof (hash_range k) as Hk.
  change _counters2PerLock with 8. change _counters2Locks with 1024.
  change _counters2Width with 8192 in Hk.
  assert (0 <= hash k / 8 < 1024); [ | lia].
  split; [apply Z.div_pos; lia | apply Z.div_lt_upper_bound; lia].
Qed.

Lemma exec_counters2_untouched (ops : list op) :
  ∀ c : counters2,
    counters2_shape c →
    ∃ c', exec_counters2 ops c = Ok c' ∧ counters2_shape c' ∧
          ∀ j : nat, (Z.to_nat _counters2Locks <= j)%nat → c' !! j = c !! j.
Proof.
  induction ops as [| o ops IH]; intros c Hshape.
  - exists c. split; [reflexivity | split; [exact Hshape | reflexivity]].
  - destruct o as [k | k].
    + destruct (counters2_Inc_slot k c Hshape)
        as (n & c1 & _ & Hinc & Hshape1 & _).
      destruct (counters2_Inc_buckets k c Hshape) as (n' & c1' & Hinc' & Hb).
      rewrite Hinc in Hinc'. injection Hinc' as _ <-.
      rewrite (exec_counters2_Inc_step k ops c c1 _ Hinc).
      destruct (IH c1 Hshape1) as (c' & Hexec & Hshape' & Hrest).
      exists c'. split; [exact Hexec | split; [exact Hshape' | ]].
      intros j Hj. rewrite Hrest by exact Hj. apply Hb.
      pose proof (hash_bucket_below_locks k). lia.
    + destruct (counters2_Reset_slot k c Hshape)
        as (c1 & Hreset & Hshape1 & _).
      destruct (counters2_Reset_buckets k c Hshape) as (c1' & Hreset' & Hb).
      rewrite Hreset in Hreset'. injection Hreset' as <-.
      rewrite (exec_counters2_Reset_step k ops c c1 Hreset).
      destruct (IH c1 Hshape1) as (c' & Hexec & Hshape' & Hrest).
      exists c'. split; [exact Hexec | split; [exact Hshape' | ]].
      intros j Hj. rewrite Hrest by exact Hj. apply Hb.
      pose proof (hash_bucket_below_locks k). lia.
Qed.

(** X8. Of the [_counters2Width] buckets of the table only the first
    [_counters2Locks] are ever used: after any sequence of operations on a new
    table every bucket from index [_counters2Locks] on is still all zero. *)
Theorem counters2_upper_buckets_unused :
  ∀ (ops : list op) (j : nat),
    (Z.to_nat _counters2Locks <= j < Z.to_nat _counters2Width)%nat →
    ∃ c, exec_counters2 ops newCounters2 = Ok c ∧
         c !! j = Some {| b_counts := replicate (Z.to_nat _counters2PerLock) 0 |}.
Proof.
  intros ops j [Hlo Hhi].
  destruct (exec_counters2_untouched ops newCounters2 newCounters2_shape)
    as (c & Hexec & _ & Hrest).
  exists c. split; [exact Hexec | ].
  rewrite Hrest by exact Hlo.
  unfold newCounters2. apply lookup_replicate_2. exact Hhi.
Qed.

Lemma counters2_upper_buckets_unused_witness :
  (Z.to_nat _counters2Locks <= 1024 < Z.to_nat _counters2Width)%nat ∧
  ∃ c, exec_counters2 [OpInc "a"; OpInc Examples.msg1; OpReset "a"]
         newCounters2 = Ok c ∧
       c !! 1024%nat =
       Some {| b_counts := replicate (Z.to_nat _counters2PerLock) 0 |}.
Proof.
  assert (H : (Z.to_nat _counters2Locks <= 1024 < Z.to_nat _counters2Width)%nat).
  { split; [vm_compute; apply le_n | ].
    apply Nat.ltb_lt. vm_compute. reflexivity. }
  split; [exact H | ].
  exact (counters2_upper_buckets_unused
           [OpInc "a"; OpInc Examples.msg1; OpReset "a"] 1024%nat H).
Defined.

Lemma exec_counters2_counts_per_slot_witness :
  ∃ c, exec_counters2 [OpInc Examples.key1; OpInc Examples.key2;
                       OpInc Examples.key1] newCounters2 = Ok c ∧
       slot_of c (hash Examples.key2) = Some 3.
Proof.
  destruct (exec_counters2_counts_per_slot
              [OpInc Examples.key1; OpInc Examples.key2; OpInc Examples.key1]
              Examples.key2) as (c & Hexec & _ & Hslot).
  exists c. split; [exact Hexec | ]. rewrite Hslot. vm_compute. reflexivity.
Defined.

(** ** The sampler over runs of calls *)

Section SamplerRuns.

Context {Level CheckedEntry : Type}.

Implicit Types (s : sampler Level CheckedEntry) (w : world Level CheckedEntry).
Implicit Types (ent : Entry Level) (ce : CheckedEntry).

(** Every way [Check] can return. *)
Lemma Check_inv s ent ce w ce' s' w' :
  Check s ent ce w = Ok (ce', s', w') →
  (Enabled (s_Facility s) (ent_Level ent) = false ∧
   ce' = ce ∧ s' = s ∧ w' = w) ∨
  (Enabled (s_Facility s) (ent_Level ent) = true ∧
   s' = with_counts s (<[ent_Message ent :=
                          u64 (count_of s (ent_Message ent) + 1)]> (s_counts s)) ∧
   now w' = now w ∧
   (timers w' = timers w ∨
    timers w' = timers w ++ [{| t_deadline := now w + s_tick s;
                                t_key := ent_Message ent |}]) ∧
   ((ce' = ce ∧ forwarded w' = forwarded w) ∨
    (ce' = Facility_Check (s_Facility s) ent ce ∧
     forwarded w' = forwarded w ++ [(ent, ce)]))).
Proof.
  unfold Check.
  destruct (Enabled (s_Facility s) (ent_Level ent)) eqn:Hen; simpl negb; cbv iota.
  - destruct (counters_Inc_count (ent_Message ent) (s_counts s)) as [Hn Hc].
    destruct (counters_Inc (ent_Message ent) (s_counts s)) as [n c].
    simpl in Hn, Hc. fold (count_of s (ent_Message ent)) in Hn, Hc.
    subst n c. intros H. right. split; [reflexivity | ].
    revert H. simpl s_first. simpl s_thereafter. simpl s_tick. simpl s_Facility.
    destruct (s_first s <? _).
    + unfold u64_rem. destruct (s_thereafter s =? 0); [discriminate | ].
      simpl. destruct (_ =? u64 (s_first s + 1));
        destruct (_ mod _ =? 0); simpl; intros [= <- <- <-]; simpl; auto 10.
    + intros [= <- <- <-]. simpl. auto 10.
  - intros [= <- <- <-]. left. auto.
Qed.

(** X9. A [Check] call that returns leaves the policy, the counts of all
    other messages and the clock as they are, removes no pending timer and no
    entry of the log of forwarded calls, and removes no key from the
    counter. *)
Theorem Check_touches_only_its_message :
  ∀ s ent ce w ce' s' w',
    Check s ent ce w = Ok (ce', s', w') →
    same_policy s s' ∧
    (∀ k, k ≠ ent_Message ent → s_counts s' !! k = s_counts s !! k) ∧
    (∀ k, is_Some (s_counts s !! k) → is_Some (s_counts s' !! k)) ∧
    now w' = now w ∧
    timers w `prefix_of` timers w' ∧
    forwarded w `prefix_of` forwarded w'.
Proof.
  intros s ent ce w ce' s' w' H.
  destruct (Check_inv _ _ _ _ _ _ _ H)
    as [(_ & -> & -> & ->) | (_ & -> & Hnow & Htm & Hfw)].
  - repeat split; auto.
  - split; [repeat split | ].
    split; [intros k Hk; simpl; apply lookup_insert_ne; congruence | ].
    split.
    { intros k Hk. simpl. destruct (decide (ent_Message ent = k)) as [<- | Hne].
      - rewrite lookup_insert_eq. eauto.
      - rewrite lookup_insert_ne by exact Hne. exact Hk. }
    split; [exact Hnow | ]. split.
    + destruct Htm as [-> | ->]; [reflexivity | apply prefix_app_r; reflexivity].
    + destruct Hfw as [[_ ->] | [_ ->]];
        [reflexivity | apply prefix_app_r; reflexivity].
Qed.

Lemma forwards_thereafter_one (first n : Z) : forwards first 1 n = true.
Proof.
  unfold forwards. rewrite Z.mod_1_r. apply orb_true_r.
Qed.

(** X10. With [thereafter = 1] nothing is throttled: every enabled call is
    forwarded, whatever [first] is and however many calls came before. *)
Theorem Check_thereafter_one_forwards_all :
  ∀ (fac : Facility Level CheckedEntry) (tick first : Z) ent ce w (k : nat),
    Enabled fac (ent_Level ent) = true →
    ∃ s, Sample fac tick first 1 = Ok s ∧
         Check_pattern k s ent ce w = Ok (replicate k true).
Proof.
  intros fac tick first ent ce w k Hen.
  eexists. split; [reflexivity | ].
  set (s0 := {| s_Facility := fac; s_tick := tick; s_counts := newCounters;
                s_first := u64 first; s_thereafter := u64 1 |}).
  assert (HF : s_Facility s0 = fac) by reflexivity.
  assert (Hf : is_u64 (s_first s0)) by apply u64_range.
  assert (Ht : s_thereafter s0 = 1) by reflexivity.
  clearbody s0. revert s0 w HF Hf Ht.
  induction k as [| k IH]; intros s w HF Hf Ht; [reflexivity | ].
  cbn [Check_pattern].
  rewrite (Check_enabled s ent ce w); [ | rewrite HF; exact Hen | exact Hf | lia].
  rewrite Ht, forwards_thereafter_one. simpl.
  rewrite IH by (simpl; auto). simpl.
  f_equal. f_equal. unfold reached_wrapped.
  apply bool_decide_eq_true_2.
  destruct (_ =? _); simpl; rewrite length_app; simpl; lia.
Qed.

(** Within the burst allowance [Check] forwards without looking at the
    cadence. *)
Lemma Check_within_burst s ent ce w :
  Enabled (s_Facility s) (ent_Level ent) = true →
  u64 (count_of s (ent_Message ent) + 1) <= s_first s →
  Check s ent ce w =
  Ok (Facility_Check (s_Facility s) ent ce,
      with_counts s (<[ent_Message ent :=
                         u64 (count_of s (ent_Message ent) + 1)]> (s_counts s)),
      forward ent ce w).
Proof.
  intros Hen Hle. unfold Check. rewrite Hen. simpl negb. cbv iota.
  destruct (counters_Inc_count (ent_Message ent) (s_counts s)) as [Hn Hc].
  destruct (counters_Inc (ent_Message ent) (s_counts s)) as [n c].
  simpl in Hn, Hc. fold (count_of s (ent_Message ent)) in Hn, Hc. subst n c.
  simpl s_first.
  destruct (Z.ltb_spec (s_first s) (u64 (count_of s (ent_Message ent) + 1)));
    [lia | reflexivity].
Qed.

Lemma run_Checks_within_burst (k : nat) :
  ∀ s ent ce w,
    Enabled (s_Facility s) (ent_Level ent) = true →
    0 <= count_of s (ent_Message ent) →
    count_of s (ent_Message ent) + Z.of_nat k <= s_first s →
    s_first s < 2 ^ 64 →
    ∃ s' w',
      run_Checks (replicate k ent) ce s w = Ok (s', w') ∧
      same_policy s s' ∧
      count_of s' (ent_Message ent) = count_of s (ent_Message ent) + Z.of_nat k ∧
      length (forwarded w') = (length (forwarded w) + k)%nat.
Proof.
  induction k as [| k IH]; intros s ent ce w Hen H0 Hle Hf.
  - exists s, w. simpl. split; [reflexivity | ].
    split; [repeat split | split; lia].
  - assert (Hn : u64 (count_of s (ent_Message ent) + 1) =
                 count_of s (ent_Message ent) + 1)
      by (apply u64_small; unfold is_u64; lia).
    pose proof (Check_within_burst s ent ce w Hen) as HC.
    rewrite Hn in HC. specialize (HC ltac:(lia)).
    set (s1 := with_counts s _) in HC.
    assert (Hc1 : count_of s1 (ent_Message ent) = count_of s (ent_Message ent) + 1).
    { unfold s1. rewrite count_of_with_counts, decide_True; reflexivity. }
    destruct (IH s1 ent ce (forward ent ce w)) as (s' & w' & Hrun & Hpol & Hcnt & Hlen).
    { exact Hen. }
    { lia. }
    { rewrite Hc1. simpl s_first. lia. }
    { exact Hf. }
    exists s', w'. cbn [replicate run_Checks]. rewrite HC. simpl.
    split; [exact Hrun | ].
    split; [exact Hpol | ].
    split; [lia | ].
    rewrite Hlen. simpl. rewrite length_app. simpl. lia.
Qed.

(** X11. A sampler built with [thereafter = 0] forwards the first [first]
    calls for a message and panics with an integer division by zero on the
    next one. *)
Theorem Sample_thereafter_zero_panics_after_burst :
  ∀ (fac : Facility Level CheckedEntry) (tick first : Z) ent ce w,
    0 <= first < 2 ^ 63 →
    Enabled fac (ent_Level ent) = true →
    ∃ s0 s w1,
      Sample fac tick first 0 = Ok s0 ∧
      run_Checks (replicate (Z.to_nat first) ent) ce s0 w = Ok (s, w1) ∧
      length (forwarded w1) = (length (forwarded w) + Z.to_nat first)%nat ∧
      Check s ent ce w1 = Panic DivideByZero.
Proof.
  intros fac tick first ent ce w Hf Hen.
  assert (H63 : 2 ^ 63 < 2 ^ 64) by reflexivity.
  set (s0 := {| s_Facility := fac; s_tick := tick; s_counts := newCounters;
                s_first := u64 first; s_thereafter := 0 |}).
  assert (Hfi : s_first s0 = first)
    by (simpl; apply u64_small; unfold is_u64; lia).
  assert (Hz : count_of s0 (ent_Message ent) = 0).
  { unfold count_of. simpl. unfold newCounters.
    rewrite lookup_empty. reflexivity. }
  destruct (run_Checks_within_burst (Z.to_nat first) s0 ent ce w)
    as (s & w1 & Hrun & (HF & _ & Hfs & Hth) & Hcnt & Hlen).
  { exact Hen. }
  { lia. }
  { rewrite Hz, Hfi. lia. }
  { rewrite Hfi. lia. }
  exists s0, s, w1. split; [reflexivity | ].
  split; [exact Hrun | split; [exact Hlen | ]].
  apply Check_thereafter_zero_panics.
  - rewrite HF. exact Hen.
  - rewrite Hth. reflexivity.
  - rewrite Hcnt, Hz, Hfs, Hfi, Z2Nat.id by lia.
    rewrite u64_small by (unfold is_u64; lia). lia.
Qed.

(** X12. When the counter of a message stands at 2^64 - 1, the next enabled
    call wraps it to 0; that call is forwarded and arms no timer. *)
Theorem Check_count_wraps_to_zero :
  ∀ s ent ce w,
    sampler_ok s →
    Enabled (s_Facility s) (ent_Level ent) = true →
    count_of s (ent_Message ent) = 2 ^ 64 - 1 →
    ∃ s', Check s ent ce w =
            Ok (Facility_Check (s_Facility s) ent ce, s', forward ent ce w) ∧
          count_of s' (ent_Message ent) = 0.
Proof.
  intros s ent ce w (Hf & Ht & _) Hen Hmax.
  pose proof (Check_enabled s ent ce w Hen Hf Ht) as HC. cbv zeta in HC.
  rewrite Hmax in HC. change (u64 (2 ^ 64 - 1 + 1)) with 0 in HC.
  unfold is_u64 in Hf.
  assert (Hfw : forwards (s_first s) (s_thereafter s) 0 = true).
  { unfold forwards. destruct (Z.leb_spec 0 (s_first s)); [reflexivity | lia]. }
  rewrite Hfw in HC.
  destruct (Z.eqb_spec 0 (s_first s + 1)) as [? | _]; [lia | ].
  eexists. split; [exact HC | ].
  rewrite count_of_with_counts, decide_True; reflexivity.
Qed.

Lemma div_succ_step (m t : Z) :
  0 <= m → 1 <= t →
  (m + 1) / t = m / t + (if (m + 1) mod t =? 0 then 1 else 0).
Proof.
  intros Hm Ht.
  pose proof (Z.div_mod m t ltac:(lia)) as Hdm.
  pose proof (Z.mod_pos_bound m t ltac:(lia)) as Hr.
  destruct (Z.eq_dec (m mod t + 1) t) as [Heq | Hne].
  - assert (Hd : (m + 1) / t = m / t + 1).
    { symmetry. apply Z.div_unique with (r := 0); [left; lia | lia]. }
    assert (Hmod : (m + 1) mod t = 0).
    { symmetry. apply Z.mod_unique with (q := m / t + 1); [left; lia | lia]. }
    rewrite Hd, Hmod. reflexivity.
  - assert (Hd : (m + 1) / t = m / t).
    { symmetry. apply Z.div_unique with (r := m mod t + 1); [left; lia | lia]. }
    assert (Hmod : (m + 1) mod t = m mod t + 1).
    { symmetry. apply Z.mod_unique with (q := m / t); [left; lia | lia]. }
    rewrite Hd, Hmod.
    destruct (Z.eqb_spec (m mod t + 1) 0); lia.
Qed.

(** Among the calls 1 .. k the design forwards the first [first] and then
    one in every [thereafter]. *)
Lemma forwards_count (first t : Z) (k : nat) :
  0 <= first → 1 <= t →
  Z.of_nat (length (filter (fun b : bool => b = true)
                      (map (fun i => forwards first t (0 + Z.of_nat i))
                           (seq 1 k)))) =
  Z.min (Z.of_nat k) first + Z.max 0 (Z.of_nat k - first) / t.
Proof.
  intros Hf Ht. induction k as [| k IH].
  - simpl. rewrite Z.min_l, Z.max_l by lia. rewrite Z.div_0_l by lia. lia.
  - rewrite seq_S, map_app, filter_app, length_app, Nat2Z.inj_add, IH.
    cbn [map]. rewrite filter_cons, filter_nil.
    replace (0 + Z.of_nat (1 + k)) with (Z.of_nat k + 1) by lia.
    rewrite Nat2Z.inj_succ. unfold Z.succ.
    destruct (forwards first t (Z.of_nat k + 1)) eqn:E;
      [rewrite decide_True by reflexivity | rewrite decide_False by discriminate];
      cbn [length]; unfold forwards in E.
    + apply orb_true_iff in E as [E | E].
      * apply Z.leb_le in E. rewrite !Z.min_l, !Z.max_l by lia. lia.
      * apply Z.eqb_eq in E.
        destruct (Z.le_gt_cases (Z.of_nat k + 1) first) as [Hle | Hgt].
        -- rewrite !Z.min_l, !Z.max_l by lia. lia.
        -- rewrite !Z.min_r, !Z.max_r by lia.
           replace (Z.of_nat k + 1 - first) with (Z.of_nat k - first + 1) in * by lia.
           rewrite (div_succ_step (Z.of_nat k - first) t) by lia.
           rewrite E. simpl. lia.
    + apply orb_false_iff in E as [E1 E2].
      apply Z.leb_gt in E1. apply Z.eqb_neq in E2.
      rewrite !Z.min_r, !Z.max_r by lia.
      replace (Z.of_nat k + 1 - first) with (Z.of_nat k - first + 1) in * by lia.
      rewrite (div_succ_step (Z.of_nat k - first) t) by lia.
      destruct (Z.eqb_spec ((Z.of_nat k - first + 1) mod t) 0); [tauto | ].
      simpl. lia.
Qed.

(** X13. Of [k] successive enabled calls for one message on a new sampler,
    the number forwarded is [min k first] plus the whole part of
    [(k - first) / thereafter]. *)
Theorem Check_pattern_forwarded_count :
  ∀ (fac : Facility Level CheckedEntry) (tick first thereafter : Z)
    ent ce w (k : nat),
    0 <= first < 2 ^ 63 → 1 <= thereafter < 2 ^ 63 →
    Enabled fac (ent_Level ent) = true →
    Z.of_nat k < 2 ^ 64 →
    ∃ s bs,
      Sample fac tick first thereafter = Ok s ∧
      Check_pattern k s ent ce w = Ok bs ∧
      Z.of_nat (length (filter (fun b : bool => b = true) bs)) =
      Z.min (Z.of_nat k) first + Z.max 0 (Z.of_nat k - first) / thereafter.
Proof.
  intros fac tick first thereafter ent ce w k Hf Ht Hen Hk.
  destruct (Sample_ok fac tick first thereafter Hf Ht)
    as (s & HS & HF & _ & Hfi & Hth & Hc & Hok).
  assert (Hz : count_of s (ent_Message ent) = 0).
  { unfold count_of. rewrite Hc. unfold newCounters.
    rewrite lookup_empty. reflexivity. }
  eexists s, _. split; [exact HS | ].
  split.
  - apply Check_pattern_forwards;
      [rewrite HF; exact Hen | exact Hok | rewrite Hz; lia].
  - rewrite Hfi, Hth, Hz. apply forwards_count; lia.
Qed.

(** X14. When the reset timer of a message fires, the sampler starts over
    for that message: the calls that follow are forwarded as on a new
    sampler. *)
Theorem fire_restarts_pattern :
  ∀ s w (i : nat) (t : timer) ent ce (k : nat),
    sampler_ok s →
    timers w !! i = Some t →
    is_Some (s_counts s !! t_key t) →
    t_deadline t <= now w →
    ent_Message ent = t_key t →
    Enabled (s_Facility s) (ent_Level ent) = true →
    Z.of_nat k < 2 ^ 64 →
    ∃ s' w',
      fire i s w = Some (Ok (s', w')) ∧
      count_of s' (ent_Message ent) = 0 ∧
      Check_pattern k s' ent ce w' =
      Ok (map (fun n => forwards (s_first s) (s_thereafter s) (Z.of_nat n))
              (seq 1 k)).
Proof.
  intros s w i t ent ce k Hok Ht Hkey Hdue Hmsg Hen Hk.
  destruct (fire_resets s w i t Ht Hkey) as [_ Hfire].
  specialize (Hfire Hdue).
  set (s' := with_counts s (<[t_key t := 0]> (s_counts s))) in *.
  assert (Hz : count_of s' (ent_Message ent) = 0).
  { unfold s'. rewrite count_of_with_counts, decide_True; auto. }
  eexists s', _. split; [exact Hfire | ]. split; [exact Hz | ].
  rewrite Check_pattern_forwards.
  - rewrite Hz. reflexivity.
  - exact Hen.
  - apply sampler_ok_with_counts; [exact Hok | unfold is_u64; lia].
  - rewrite Hz. lia.
Qed.

(** *** What can be reached from a new sampler *)

Lemma sampler_step_keeps_timers_live s w s' w' :
  sampler_step (s, w) (s', w') →
  timers_live s w → timers_live s' w' ∧ same_policy s s'.
Proof.
  intros Hstep Hlive. inversion Hstep as
    [s1 w1 ent ce ce' s2 w2 HC | s1 w1 d Hd | s1 w1 i s2 w2 Hfire]; subst.
  - destruct (Check_inv _ _ _ _ _ _ _ HC)
      as [(_ & _ & -> & ->) | (_ & -> & _ & Htm & _)].
    + split; [exact Hlive | repeat split].
    + split; [ | repeat split].
      assert (Hkeep : ∀ k, is_Some (s_counts s !! k) →
                is_Some (<[ent_Message ent :=
                   u64 (count_of s (ent_Message ent) + 1)]> (s_counts s) !! k)).
      { intros k Hk. destruct (decide (ent_Message ent = k)) as [<- | Hne].
        - rewrite lookup_insert_eq. eauto.
        - rewrite lookup_insert_ne by exact Hne. exact Hk. }
      unfold timers_live in *. simpl.
      destruct Htm as [-> | ->].
      * eapply Forall_impl; [exact Hlive | ]. intros t. apply Hkeep.
      * apply Forall_app. split.
        -- eapply Forall_impl; [exact Hlive | ]. intros t. apply Hkeep.
        -- apply Forall_singleton. simpl. rewrite lookup_insert_eq. eauto.
  - split; [exact Hlive | repeat split].
  - unfold fire in Hfire.
    destruct (timers w !! i) as [t | ] eqn:Ht; [ | discriminate Hfire].
    simpl in Hfire.
    destruct (t_deadline t <=? now w); [ | discriminate Hfire].
    unfold counters_Reset in Hfire.
    destruct (s_counts s !! t_key t) as [v | ] eqn:Hv;
      simpl in Hfire; [ | discriminate Hfire].
    injection Hfire as <- <-. split; [ | repeat split].
    unfold timers_live in *. simpl.
    apply Forall_delete.
    eapply Forall_impl; [exact Hlive | ]. intros t' Ht'. simpl in Ht'.
    destruct (decide (t_key t = t_key t')) as [<- | Hne].
    + rewrite lookup_insert_eq. eauto.
    + rewrite lookup_insert_ne by exact Hne. exact Ht'.
Qed.

Lemma fire_live_never_panics s w (i : nat) (p : panic) :
  timers_live s w → fire i s w ≠ Some (Panic p).
Proof.
  intros Hlive. unfold fire.
  destruct (timers w !! i) as [t | ] eqn:Ht; [ | discriminate].
  simpl. destruct (t_deadline t <=? now w); [ | discriminate].
  pose proof (Forall_lookup_1 _ _ _ _ Hlive Ht) as Hkey. simpl in Hkey.
  rewrite (counters_Reset_seen _ _ Hkey). discriminate.
Qed.

(** X15. Whatever calls, waits and timers follow the construction of a
    sampler, the policy stays as constructed, the key of every pending timer
    is in the counter, and so no timer that fires panics: the sampler never
    resets a key it has not incremented. *)
Theorem sampler_timers_never_panic :
  ∀ (fac : Facility Level CheckedEntry) (tick first thereafter : Z)
    s0 w0 s w,
    Sample fac tick first thereafter = Ok s0 →
    timers w0 = [] →
    rtc sampler_step (s0, w0) (s, w) →
    same_policy s0 s ∧
    (∀ t, t ∈ timers w → is_Some (s_counts s !! t_key t)) ∧
    ∀ (i : nat) (p : panic), fire i s w ≠ Some (Panic p).
Proof.
  intros fac tick first thereafter s0 w0 s w _ Hw0 Hrtc.
  assert (H : timers_live s w ∧ same_policy s0 s).
  { refine (rtc_ind_r
              (fun x => timers_live (fst x) (snd x) ∧ same_policy s0 (fst x))
              (s0, w0) _ _ (s, w) Hrtc).
    - simpl. split; [ | repeat split].
      unfold timers_live. rewrite Hw0. constructor.
    - intros [s1 w1] [s2 w2] _ Hstep [Hlive (HF & Htk & Hfi & Hth)].
      simpl in *.
      destruct (sampler_step_keeps_timers_live _ _ _ _ Hstep Hlive)
        as [Hlive' (HF' & Htk' & Hfi' & Hth')].
      split; [exact Hlive' | ]. repeat split; congruence. }
  destruct H as [Hlive Hpol].
  split; [exact Hpol | split].
  - intros t Ht. unfold timers_live in Hlive.
    rewrite Forall_forall in Hlive. apply Hlive, Ht.
  - intros i p. apply fire_live_never_panics, Hlive.
Qed.

End SamplerRuns.

(** ** Samplers derived by [With] *)

Section SamplerWith.

Context {Level CheckedEntry Field : Type}.
Variable Facility_With :
  Facility Level CheckedEntry → list Field → Facility Level CheckedEntry.

Lemma load_With (h : list counters) (r : sampler_ref) (fields : list Field)
    (s : sampler Level CheckedEntry) :
  load h r = Some s →
  load h (With Facility_With r fields) =
  Some {| s_Facility := Facility_With (r_Facility r) fields;
          s_tick := s_tick s; s_counts := s_counts s;
          s_first := s_first s; s_thereafter := s_thereafter s |}.
Proof.
  unfold load. simpl. destruct (h !! r_counts r) as [c | ]; simpl.
  - intros [= <-]. reflexivity.
  - discriminate.
Qed.

(** X16. A sampler returned by [With] counts in the counter of the sampler
    it was derived from: after an enabled call through one derived sampler,
    the sampler itself and every other sampler derived from it see the count
    of that message one higher, under the same policy; the counters of other
    samplers are untouched. *)
Theorem With_shares_counter :
  ∀ (r : sampler_ref) (h : list counters) (s : sampler Level CheckedEntry)
    (w : world Level CheckedEntry) (fields1 fields2 : list Field)
    (ent : Entry Level) (ce : CheckedEntry),
    load h r = Some s →
    sampler_ok s →
    Enabled (Facility_With (r_Facility r) fields1) (ent_Level ent) = true →
    ∃ ce' h' w' s1 s2,
      Check_ref (With Facility_With r fields1) ent ce h w = Ok (ce', h', w') ∧
      load h' r = Some s1 ∧
      load h' (With Facility_With r fields2) = Some s2 ∧
      s_Facility s2 = Facility_With (r_Facility r) fields2 ∧
      s_tick s2 = s_tick s ∧ s_first s2 = s_first s ∧
      s_thereafter s2 = s_thereafter s ∧
      s_counts s2 = s_counts s1 ∧
      (∀ k, count_of s1 k =
            if decide (ent_Message ent = k)
            then u64 (count_of s (ent_Message ent) + 1) else count_of s k) ∧
      (∀ a : nat, a ≠ r_counts r → h' !! a = h !! a).
Proof.
  intros r h s w fields1 fields2 ent ce Hload Hok Hen.
  pose proof (load_With h r fields1 s Hload) as Hload1.
  set (s' := {| s_Facility := Facility_With (r_Facility r) fields1;
                s_tick := s_tick s; s_counts := s_counts s;
                s_first := s_first s; s_thereafter := s_thereafter s |}) in *.
  assert (Hok' : sampler_ok s') by exact Hok.
  destruct (Check_enabled_step s' ent ce w Hen Hok')
    as (ce' & s1' & w' & HC & _ & (_ & _ & Hfi & Hth) & Hcnt & _).
  assert (Hlt : (r_counts r < length h)%nat).
  { unfold load in Hload. destruct (h !! r_counts r) as [c | ] eqn:E;
      [ | discriminate Hload]. eapply lookup_lt_Some, E. }
  assert (Hs : s = {| s_Facility := r_Facility r; s_tick := r_tick r;
                      s_counts := s_counts s; s_first := r_first r;
                      s_thereafter := r_thereafter r |}).
  { unfold load in Hload. destruct (h !! r_counts r) as [c | ];
      [ | discriminate Hload]. simpl in Hload. injection Hload as <-.
    reflexivity. }
  set (h' := <[r_counts r := s_counts s1']> h).
  assert (Hget : h' !! r_counts r = Some (s_counts s1'))
    by (apply list_lookup_insert_eq; exact Hlt).
  eexists ce', h', w', _, _.
  split.
  { unfold Check_ref. rewrite Hload1. simpl. rewrite HC. reflexivity. }
  split; [unfold load; rewrite Hget; reflexivity | ].
  split; [unfold load; simpl; rewrite Hget; reflexivity | ].
  simpl. rewrite Hs. simpl.
  do 5 (split; [reflexivity | ]).
  split.
  - intros k. specialize (Hcnt k). unfold count_of in *. simpl in *. exact Hcnt.
  - intros a Ha. apply list_lookup_insert_ne. congruence.
Qed.

End SamplerWith.

(** ** Concrete runs of the further properties *)

Lemma Check_touches_only_its_message_witness :
  ∃ ce' s' w',
    Check Examples.sampler_1_3 Examples.foo [] Examples.start
      = Ok (ce', s', w') ∧
    same_policy Examples.sampler_1_3 s' ∧
    now w' = now Examples.start.
Proof.
  destruct (Check Examples.sampler_1_3 Examples.foo [] Examples.start)
    as [[[ce' s'] w'] | p] eqn:E; [ | vm_compute in E; discriminate E].
  exists ce', s', w'. split; [reflexivity | ].
  destruct (Check_touches_only_its_message _ _ _ _ _ _ _ E)
    as (Hpol & _ & _ & Hnow & _).
  split; [exact Hpol | exact Hnow].
Defined.

Lemma Check_thereafter_one_forwards_all_witness :
  ∃ s, Sample Examples.facility 1000 (-7) 1 = Ok s ∧
       Check_pattern 5 s Examples.foo [] Examples.start
         = Ok (replicate 5 true).
Proof.
  apply (Check_thereafter_one_forwards_all Examples.facility 1000 (-7)
           Examples.foo [] Examples.start 5).
  reflexivity.
Defined.

Lemma Sample_thereafter_zero_panics_after_burst_witness :
  ∃ s0 s w1,
    Sample Examples.facility 1000 2 0 = Ok s0 ∧
    run_Checks (replicate (Z.to_nat 2) Examples.foo) [] s0 Examples.start
      = Ok (s, w1) ∧
    length (forwarded w1) = (length (forwarded Examples.start) + Z.to_nat 2)%nat ∧
    Check s Examples.foo [] w1 = Panic DivideByZero.
Proof.
  apply (Sample_thereafter_zero_panics_after_burst Examples.facility 1000 2
           Examples.foo [] Examples.start).
  - lia.
  - reflexivity.
Defined.

Lemma Check_pattern_forwarded_count_witness :
  ∃ s bs,
    Sample Examples.facility 1000 1 3 = Ok s ∧
    Check_pattern 10 s Examples.foo [] Examples.start = Ok bs ∧
    Z.of_nat (length (filter (fun b : bool => b = true) bs)) = 4.
Proof.
  destruct (Check_pattern_forwarded_count Examples.facility 1000 1 3
              Examples.foo [] Examples.start 10)
    as (s & bs & HS & HP & Hn); [lia | lia | reflexivity | simpl; lia | ].
  exists s, bs. split; [exact HS | split; [exact HP | ]].
  rewrite Hn. reflexivity.
Defined.

Lemma singleton_counter_ok (v : Z) (s : sampler bool (list string)) :
  is_u64 v → is_u64 (s_first s) → s_thereafter s ≠ 0 →
  s_counts s = {[ "foo" := v ]} → sampler_ok s.
Proof.
  intros Hv Hf Ht Hc. split; [exact Hf | split; [exact Ht | ]].
  intros key count. rewrite Hc. intros H.
  apply lookup_singleton_Some in H as [_ <-]. exact Hv.
Qed.

Lemma sampler_at_max_ok : sampler_ok MoreExamples.sampler_at_max.
Proof.
  apply (singleton_counter_ok (2 ^ 64 - 1)); try reflexivity;
    try discriminate; unfold is_u64; simpl; lia.
Qed.

Lemma sampler_after_five_ok : sampler_ok MoreExamples.sampler_after_five.
Proof.
  apply (singleton_counter_ok 5); try reflexivity;
    try discriminate; unfold is_u64; simpl; lia.
Qed.

Lemma Check_count_wraps_to_zero_witness :
  count_of MoreExamples.sampler_at_max "foo" = 2 ^ 64 - 1 ∧
  ∃ s', Check MoreExamples.sampler_at_max Examples.foo [] Examples.start =
          Ok (["foo"], s', forward Examples.foo [] Examples.start) ∧
        count_of s' "foo" = 0.
Proof.
  split; [reflexivity | ].
  exact (Check_count_wraps_to_zero MoreExamples.sampler_at_max Examples.foo []
           Examples.start sampler_at_max_ok eq_refl eq_refl).
Defined.

Lemma fire_restarts_pattern_witness :
  ∃ s' w',
    fire 0 MoreExamples.sampler_after_five MoreExamples.world_timer_due
      = Some (Ok (s', w')) ∧
    count_of s' "foo" = 0 ∧
    Check_pattern 4 s' Examples.foo [] w' = Ok [true; false; false; true].
Proof.
  destruct (fire_restarts_pattern MoreExamples.sampler_after_five
              MoreExamples.world_timer_due 0
              {| t_deadline := 1000; t_key := "foo" |} Examples.foo [] 4)
    as (s' & w' & Hfire & Hz & Hpat).
  - exact sampler_after_five_ok.
  - reflexivity.
  - simpl. rewrite lookup_singleton_eq. eauto.
  - simpl. lia.
  - reflexivity.
  - reflexivity.
  - simpl. lia.
  - exists s', w'. split; [exact Hfire | split; [exact Hz | exact Hpat]].
Defined.

Lemma sampler_timers_never_panic_witness :
  ∃ ce' s w,
    Check Examples.sampler_1_3 Examples.foo [] Examples.start = Ok (ce', s, w) ∧
    same_policy Examples.sampler_1_3 s ∧
    ∀ (i : nat) (p : panic), fire i s w ≠ Some (Panic p).
Proof.
  destruct (Check Examples.sampler_1_3 Examples.foo [] Examples.start)
    as [[[ce' s] w] | p] eqn:E; [ | vm_compute in E; discriminate E].
  exists ce', s, w. split; [reflexivity | ].
  destruct (sampler_timers_never_panic Examples.facility 1000 1 3
              Examples.sampler_1_3 Examples.start s w)
    as (Hpol & _ & Hfire).
  - reflexivity.
  - reflexivity.
  - apply rtc_once. exact (step_Check _ _ _ _ _ _ _ E).
  - split; [exact Hpol | exact Hfire].
Defined.

Lemma With_shares_counter_witness :
  ∃ ce' h' w' s2,
    Check_ref (With MoreExamples.facility_With MoreExamples.sampler_ref_1_3 ["a"])
              Examples.foo [] MoreExamples.heap_1_3 Examples.start
      = Ok (ce', h', w') ∧
    load h' (With MoreExamples.facility_With MoreExamples.sampler_ref_1_3 ["b"])
      = Some s2 ∧
    count_of s2 "foo" = 1.
Proof.
  destruct (With_shares_counter MoreExamples.facility_With
              MoreExamples.sampler_ref_1_3 MoreExamples.heap_1_3
              Examples.sampler_1_3 Examples.start ["a"] ["b"] Examples.foo [])
    as (ce' & h' & w' & s1 & s2 & HC & _ & Hload & _ & _ & _ & _ & Hcs & Hcnt & _).
  - reflexivity.
  - exact sampler_1_3_ok.
  - reflexivity.
  - exists ce', h', w', s2. split; [exact HC | split; [exact Hload | ]].
    unfold count_of. rewrite Hcs. fold (count_of s1 "foo").
    rewrite Hcnt. reflexivity.
Defined.

(** ** The runtime operations on the inputs the sampler gives them *)

Section RuntimeOperations.

Context {Level CheckedEntry : Type}.

Lemma reachable_timers_live (s0 s : sampler Level CheckedEntry)
    (w0 w : world Level CheckedEntry) :
  timers w0 = [] →
  rtc sampler_step (s0, w0) (s, w) →
  timers_live s w.
Proof.
  intros Hw0 Hrtc.
  refine (rtc_ind_r (fun x => timers_live (fst x) (snd x))
                    (s0, w0) _ _ (s, w) Hrtc).
  - simpl. unfold timers_live. rewrite Hw0. constructor.
  - intros [s1 w1] [s2 w2] _ Hstep Hlive. simpl in *.
    apply (sampler_step_keeps_timers_live _ _ _ _ Hstep Hlive).
Qed.

(** C3 (as amended). [Inc] on either counter and [Reset] on the sharded
    counter complete for every key.  [Reset] on the exact counter completes,
    storing zero, for every key that has been passed to [Inc]; it is not
    defined for a key that never was, and the sampler never calls it so: in
    every state reached from a new sampler no timer that fires faults.
    [Check] completes on every sampler whose cadence is not zero. *)
Theorem runtime_operations_complete :
  (∀ (key : string) (c : counters),
     ∃ n c', counters_Inc key c = (n, c') ∧ c' !! key = Some n) ∧
  (∀ (key : string) (c : counters),
     is_Some (c !! key) →
     ∃ c', counters_Reset key c = Ok c' ∧ c' !! key = Some 0 ∧
           ∀ k, k ≠ key → c' !! k = c !! k) ∧
  (∀ (key : string) (c : counters2),
     counters2_shape c →
     (∃ n c', counters2_Inc key c = Ok (n, c') ∧ counters2_shape c') ∧
     (∃ c', counters2_Reset key c = Ok c' ∧ counters2_shape c')) ∧
  (∀ (s : sampler Level CheckedEntry) (ent : Entry Level) (ce : CheckedEntry)
     (w : world Level CheckedEntry),
     sampler_ok s →
     ∃ ce' s' w', Check s ent ce w = Ok (ce', s', w') ∧ sampler_ok s') ∧
  (∀ (fac : Facility Level CheckedEntry) (tick first thereafter : Z)
     s0 w0 s w,
     Sample fac tick first thereafter = Ok s0 →
     timers w0 = [] →
     rtc sampler_step (s0, w0) (s, w) →
     ∀ (i : nat) (t : timer),
       timers w !! i = Some t →
       (t_deadline t <= now w →
        ∃ s' w', fire i s w = Some (Ok (s', w')) ∧ count_of s' (t_key t) = 0) ∧
       (now w < t_deadline t → fire i s w = None)).
Proof.
  split; [ | split; [ | split; [ | split]]].
  - intros key c. destruct (counters_Inc_count key c) as [Hn Hc].
    destruct (counters_Inc key c) as [n c']. simpl in Hn, Hc.
    exists n, c'. split; [reflexivity | ].
    rewrite Hc, Hn. apply lookup_insert_eq.
  - intros key c Hkey. exists (<[key := 0]> c).
    split; [apply counters_Reset_seen, Hkey | ].
    split; [apply lookup_insert_eq | ].
    intros k Hk. apply lookup_insert_ne. congruence.
  - intros key c Hshape. split.
    + destruct (counters2_Inc_slot key c Hshape)
        as (n & c' & _ & Hinc & Hshape' & _).
      eauto.
    + destruct (counters2_Reset_slot key c Hshape) as (c' & Hreset & Hshape' & _).
      eauto.
  - intros s ent ce w Hok.
    destruct (Check_timer_step s ent ce w Hok)
      as (ce' & s' & w' & HC & Hok' & _).
    eauto.
  - intros fac tick first thereafter s0 w0 s w _ Hw0 Hrtc i t Ht.
    pose proof (reachable_timers_live s0 s w0 w Hw0 Hrtc) as Hlive.
    pose proof (Forall_lookup_1 _ _ _ _ Hlive Ht) as Hkey. simpl in Hkey.
    destruct (fire_resets s w i t Ht Hkey) as [Hearly Hdue].
    split; [ | exact Hearly].
    intros Hd. eexists _, _. split; [apply Hdue, Hd | ].
    rewrite count_of_with_counts, decide_True; reflexivity.
Qed.

End RuntimeOperations.

(** C3, the claim as stated fails: [Reset] on a new exact counter, for a
    key that was never passed to [Inc], does not complete. *)
Lemma counters_Reset_never_seen_key_faults :
  counters_Reset "never seen" newCounters = Panic NilDereference.
Proof. reflexivity. Qed.

Lemma runtime_operations_complete_witness :
  is_Some (snd (counters_Inc "foo" newCounters) !! "foo") ∧
  ∃ c', counters_Reset "foo" (snd (counters_Inc "foo" newCounters)) = Ok c' ∧
        c' !! "foo" = Some 0.
Proof.
  assert (H : is_Some (snd (counters_Inc "foo" newCounters) !! "foo"))
    by (exists 1; reflexivity).
  split; [exact H | ].
  destruct (proj1 (proj2 (@runtime_operations_complete bool (list string)))
              "foo" (snd (counters_Inc "foo" newCounters)) H)
    as (c' & Hreset & Hzero & _).
  exists c'. split; [exact Hreset | exact Hzero].
Defined.
